(** * dipcc: powers, static tables and the Game aggregate

    A shallow embedding of the parts of the dipcc Diplomacy engine that
    are visible in [power.cc], in the civil-disorder / location-index
    table header and in [game.h], together with the properties the design
    document states about them. *)

From Stdlib Require Import ZArith NArith Ascii DecimalString DecimalN.
From stdpp Require Import base decidable countable finite option list sorting.
From stdpp Require Import strings gmap fin_maps.

#[local] Set Warnings "-register-all".

Local Open Scope Z_scope.

(** ** Failures *)

(** Modelled from the spec: the ways a call can fail. The C++ code signals
    failure by throwing: [std::vector::at] throws [std::out_of_range]; the
    [JFAIL] macro of [checks.h] aborts the call with the message it is
    given (the lookup failure of the design document); the other kinds are
    the error kinds the design document lists for the Game object. *)

Inductive error : Type :=
| OutOfRange
| JFail (msg : string)
| IllegalStateError (msg : string)
| ParadoxError
| CorruptSnapshotError (msg : string).

Inductive result (A : Type) : Type :=
| Ok (a : A)
| Err (e : error).

Arguments Ok {A} a.
Arguments Err {A} e.

#[global] Instance result_ret : MRet result := fun A a => Ok a.
#[global] Instance result_bind : MBind result := fun A B k r =>
  match r with
  | Ok a => k a
  | Err e => Err e
  end.

#[global] Instance error_eq_dec : EqDecision error.
Proof. solve_decision. Defined.

#[global] Instance result_eq_dec {A} `{EqDecision A} : EqDecision (result A).
Proof. solve_decision. Defined.

(** ** Machine integers *)

(** [size_t] is 64 bits wide on the targets the engine is built for. *)
Definition SIZE_BITS : Z := 64.
Definition size_t_wrap (z : Z) : Z := z mod 2 ^ SIZE_BITS.

(** [v.at(i)]: bounds-checked element access. *)
Definition vector_at {A : Type} (v : list A) (i : Z) : result A :=
  if bool_decide (0 <= i < Z.of_nat (length v))
  then match v !! Z.to_nat i with
       | Some a => Ok a
       | None => Err OutOfRange
       end
  else Err OutOfRange.

(** * Powers ([power.h], [power.cc]) *)

Module Power.

(** Modelled from the spec: the enumeration [Power] of [power.h], the
    sentinel [NONE] and the seven Great Powers. [power.cc] relies on [NONE]
    being the first enumerator ("-1 for NONE"), followed by the Great
    Powers in the order of [POWERS]. *)
Inductive Power : Type :=
| NONE | AUSTRIA | ENGLAND | FRANCE | GERMANY | ITALY | RUSSIA | TURKEY.

#[global] Instance Power_eq_dec : EqDecision Power.
Proof. solve_decision. Defined.

(** [static_cast<size_t>(power)] *)
Definition to_size_t (p : Power) : Z :=
  match p with
  | NONE => 0 | AUSTRIA => 1 | ENGLAND => 2 | FRANCE => 3
  | GERMANY => 4 | ITALY => 5 | RUSSIA => 6 | TURKEY => 7
  end.

Definition of_size_t (z : Z) : option Power :=
  match z with
  | 0 => Some NONE | 1 => Some AUSTRIA | 2 => Some ENGLAND | 3 => Some FRANCE
  | 4 => Some GERMANY | 5 => Some ITALY | 6 => Some RUSSIA | 7 => Some TURKEY
  | _ => None
  end.

#[global] Instance Power_countable : Countable Power.
Proof. refine (inj_countable to_size_t of_size_t _). by intros []. Defined.

#[global] Instance Power_finite : Finite Power.
Proof.
  refine {| enum := [NONE; AUSTRIA; ENGLAND; FRANCE; GERMANY; ITALY; RUSSIA; TURKEY] |}.
  - apply (bool_decide_unpack _). by vm_compute.
  - intros p. apply (bool_decide_unpack _). by destruct p; vm_compute.
Defined.

(** Modelled from the spec: the constant [POWERS] of [power.h], the seven
    Great Powers in enumeration order. *)
Definition POWERS : list Power :=
  [AUSTRIA; ENGLAND; FRANCE; GERMANY; ITALY; RUSSIA; TURKEY].

(** Modelled from the spec: the constant [POWERS_STR] of [power.h], the
    canonical names of the seven Great Powers, in the same order. *)
Definition POWERS_STR : list string :=
  ["AUSTRIA"; "ENGLAND"; "FRANCE"; "GERMANY"; "ITALY"; "RUSSIA"; "TURKEY"]%string.

(** The index computed by [power_str]: [static_cast<size_t>(power) - 1],
    in unsigned arithmetic. *)
Definition power_str_index (power : Power) : Z :=
  size_t_wrap (to_size_t power - 1).

(** [std::string power_str(const Power &power)] *)
Definition power_str (power : Power) : result string :=
  vector_at POWERS_STR (power_str_index power).

(** The body of the [for] loop of [power_from_str], from index [i], with
    [n] iterations left. [POWERS[i]] is unchecked; the loop bound keeps it
    inside the array. *)
Fixpoint power_from_str_loop (s : string) (i : nat) (n : nat) : result Power :=
  match n with
  | O => Err (JFail ("Bad arg to power_from_str: " +:+ s))
  | S n' =>
      match POWERS !! i with
      | Some p =>
          name ← power_str p;
          if decide (name = s) then Ok p
          else power_from_str_loop s (S i) n'
      | None => Err OutOfRange
      end
  end.

(** [Power power_from_str(const std::string &s)] *)
Definition power_from_str (s : string) : result Power :=
  power_from_str_loop s 0 7.

(** The seven real powers. *)
Definition is_great_power (p : Power) : Prop := p <> NONE.

End Power.

(** * Locations ([loc.h]) *)

Module Loc.

(** Modelled from the spec: the enumeration [Loc] of [loc.h], whose 81
    enumerators are the identifiers that key [LOC_ALPHA_IDX]. The numeric
    values of the enumerators are not used below. *)
Inductive Loc : Type :=
| ADR | AEG | ALB | ANK | APU | ARM | BAL | BAR | BEL
| BER | BLA | BOH | BOT | BRE | BUD | BUL | BUL_EC | BUL_SC
| BUR | CLY | CON | DEN | EAS | EDI | ENG | FIN | GAL
| GAS | GRE | HEL | HOL | ION | IRI | KIE | LON | LVN
| LVP | LYO | MAO | MAR | MOS | MUN | NAF | NAO | NAP
| NTH | NWG | NWY | PAR | PIC | PIE | POR | PRU | ROM
| RUH | RUM | SER | SEV | SIL | SKA | SMY | SPA | SPA_NC
| SPA_SC | STP | STP_NC | STP_SC | SWE | SYR | TRI | TUN | TUS
| TYR | TYS | UKR | VEN | VIE | WAL | WAR | WES | YOR.

(** A private numbering of the constructors, used only to obtain decidable
    equality and countability (so that [Loc] can key a finite map). *)
Definition Loc_code (l : Loc) : positive :=
  match l with
  | ADR => 1 | AEG => 2 | ALB => 3 | ANK => 4 | APU => 5
  | ARM => 6 | BAL => 7 | BAR => 8 | BEL => 9 | BER => 10
  | BLA => 11 | BOH => 12 | BOT => 13 | BRE => 14 | BUD => 15
  | BUL => 16 | BUL_EC => 17 | BUL_SC => 18 | BUR => 19 | CLY => 20
  | CON => 21 | DEN => 22 | EAS => 23 | EDI => 24 | ENG => 25
  | FIN => 26 | GAL => 27 | GAS => 28 | GRE => 29 | HEL => 30
  | HOL => 31 | ION => 32 | IRI => 33 | KIE => 34 | LON => 35
  | LVN => 36 | LVP => 37 | LYO => 38 | MAO => 39 | MAR => 40
  | MOS => 41 | MUN => 42 | NAF => 43 | NAO => 44 | NAP => 45
  | NTH => 46 | NWG => 47 | NWY => 48 | PAR => 49 | PIC => 50
  | PIE => 51 | POR => 52 | PRU => 53 | ROM => 54 | RUH => 55
  | RUM => 56 | SER => 57 | SEV => 58 | SIL => 59 | SKA => 60
  | SMY => 61 | SPA => 62 | SPA_NC => 63 | SPA_SC => 64 | STP => 65
  | STP_NC => 66 | STP_SC => 67 | SWE => 68 | SYR => 69 | TRI => 70
  | TUN => 71 | TUS => 72 | TYR => 73 | TYS => 74 | UKR => 75
  | VEN => 76 | VIE => 77 | WAL => 78 | WAR => 79 | WES => 80
  | YOR => 81
  end%positive.

Definition Loc_of_code (p : positive) : option Loc :=
  match p with
  | 1 => Some ADR | 2 => Some AEG | 3 => Some ALB | 4 => Some ANK
  | 5 => Some APU | 6 => Some ARM | 7 => Some BAL | 8 => Some BAR
  | 9 => Some BEL | 10 => Some BER | 11 => Some BLA | 12 => Some BOH
  | 13 => Some BOT | 14 => Some BRE | 15 => Some BUD | 16 => Some BUL
  | 17 => Some BUL_EC | 18 => Some BUL_SC | 19 => Some BUR | 20 => Some CLY
  | 21 => Some CON | 22 => Some DEN | 23 => Some EAS | 24 => Some EDI
  | 25 => Some ENG | 26 => Some FIN | 27 => Some GAL | 28 => Some GAS
  | 29 => Some GRE | 30 => Some HEL | 31 => Some HOL | 32 => Some ION
  | 33 => Some IRI | 34 => Some KIE | 35 => Some LON | 36 => Some LVN
  | 37 => Some LVP | 38 => Some LYO | 39 => Some MAO | 40 => Some MAR
  | 41 => Some MOS | 42 => Some MUN | 43 => Some NAF | 44 => Some NAO
  | 45 => Some NAP | 46 => Some NTH | 47 => Some NWG | 48 => Some NWY
  | 49 => Some PAR | 50 => Some PIC | 51 => Some PIE | 52 => Some POR
  | 53 => Some PRU | 54 => Some ROM | 55 => Some RUH | 56 => Some RUM
  | 57 => Some SER | 58 => Some SEV | 59 => Some SIL | 60 => Some SKA
  | 61 => Some SMY | 62 => Some SPA | 63 => Some SPA_NC | 64 => Some SPA_SC
  | 65 => Some STP | 66 => Some STP_NC | 67 => Some STP_SC | 68 => Some SWE
  | 69 => Some SYR | 70 => Some TRI | 71 => Some TUN | 72 => Some TUS
  | 73 => Some TYR | 74 => Some TYS | 75 => Some UKR | 76 => Some VEN
  | 77 => Some VIE | 78 => Some WAL | 79 => Some WAR | 80 => Some WES
  | 81 => Some YOR
  | _ => None
  end%positive.

#[global] Instance Loc_eq_dec : EqDecision Loc.
Proof.
  intros x y. refine (cast_if (decide (Loc_code x = Loc_code y))).
  - intros; apply (inj Some).
    transitivity (Loc_of_code (Loc_code x)); [by destruct x|].
    transitivity (Loc_of_code (Loc_code y)); [congruence|by destruct y].
  - congruence.
Defined.

#[global] Instance Loc_countable : Countable Loc.
Proof. refine (inj_countable Loc_code Loc_of_code _). by intros []. Defined.

(** Every location identifier, once. *)
Definition LOCS : list Loc :=
  [
   ADR; AEG; ALB; ANK; APU; ARM; BAL; BAR; BEL;
   BER; BLA; BOH; BOT; BRE; BUD; BUL; BUL_EC; BUL_SC;
   BUR; CLY; CON; DEN; EAS; EDI; ENG; FIN; GAL;
   GAS; GRE; HEL; HOL; ION; IRI; KIE; LON; LVN;
   LVP; LYO; MAO; MAR; MOS; MUN; NAF; NAO; NAP;
   NTH; NWG; NWY; PAR; PIC; PIE; POR; PRU; ROM;
   RUH; RUM; SER; SEV; SIL; SKA; SMY; SPA; SPA_NC;
   SPA_SC; STP; STP_NC; STP_SC; SWE; SYR; TRI; TUN; TUS;
   TYR; TYS; UKR; VEN; VIE; WAL; WAR; WES; YOR
  ].

#[global] Instance Loc_finite : Finite Loc.
Proof.
  refine {| enum := LOCS |}.
  - apply (bool_decide_unpack _). by vm_compute.
  - intros l. apply (bool_decide_unpack _). by destruct l; vm_compute.
Defined.

(** Modelled from the spec: the printed name of a location ([loc_str] of
    [loc.cc]); a coasted variant is written with a slash, [BUL/EC]. These
    are the strings whose sorted order generated [LOC_ALPHA_IDX]. *)
Definition loc_str (l : Loc) : string :=
  match l with
  | ADR => "ADR" | AEG => "AEG" | ALB => "ALB" | ANK => "ANK" | APU => "APU"
  | ARM => "ARM" | BAL => "BAL" | BAR => "BAR" | BEL => "BEL" | BER => "BER"
  | BLA => "BLA" | BOH => "BOH" | BOT => "BOT" | BRE => "BRE" | BUD => "BUD"
  | BUL => "BUL" | BUL_EC => "BUL/EC" | BUL_SC => "BUL/SC" | BUR => "BUR" | CLY => "CLY"
  | CON => "CON" | DEN => "DEN" | EAS => "EAS" | EDI => "EDI" | ENG => "ENG"
  | FIN => "FIN" | GAL => "GAL" | GAS => "GAS" | GRE => "GRE" | HEL => "HEL"
  | HOL => "HOL" | ION => "ION" | IRI => "IRI" | KIE => "KIE" | LON => "LON"
  | LVN => "LVN" | LVP => "LVP" | LYO => "LYO" | MAO => "MAO" | MAR => "MAR"
  | MOS => "MOS" | MUN => "MUN" | NAF => "NAF" | NAO => "NAO" | NAP => "NAP"
  | NTH => "NTH" | NWG => "NWG" | NWY => "NWY" | PAR => "PAR" | PIC => "PIC"
  | PIE => "PIE" | POR => "POR" | PRU => "PRU" | ROM => "ROM" | RUH => "RUH"
  | RUM => "RUM" | SER => "SER" | SEV => "SEV" | SIL => "SIL" | SKA => "SKA"
  | SMY => "SMY" | SPA => "SPA" | SPA_NC => "SPA/NC" | SPA_SC => "SPA/SC" | STP => "STP"
  | STP_NC => "STP/NC" | STP_SC => "STP/SC" | SWE => "SWE" | SYR => "SYR" | TRI => "TRI"
  | TUN => "TUN" | TUS => "TUS" | TYR => "TYR" | TYS => "TYS" | UKR => "UKR"
  | VEN => "VEN" | VIE => "VIE" | WAL => "WAL" | WAR => "WAR" | WES => "WES"
  | YOR => "YOR"
  end%string.

(** The coasted variants of a province. *)
Definition COASTED : list Loc := [BUL_EC; BUL_SC; SPA_NC; SPA_SC; STP_NC; STP_SC].

End Loc.

(** * Static tables (civil-disorder distances, alphabetic location index) *)

Module Tables.
Import Power Loc.

(** A [std::map] built from a braced initializer list: the pairs are
    inserted in order and an insertion never overwrites a key that is
    already present, which is what [list_to_map] does. *)
Definition map_of_init `{Countable K} {V} (init : list (K * V)) : gmap K V :=
  list_to_map init.

(** distances generated by TestGenCivilDisorder *)
Definition CIVIL_DISORDER_DISTS_ARMY_init : list (Power * list Z) :=
  [ (AUSTRIA,
     [
      6; 6; 6; 7; 5; 6; 7; 6; 5; 6; 6; 4; 4; 4; 4; 5; 5; 5; 5; 5; 4;
      3; 3; 4; 3; 5; 5; 4; 4; 4; 4; 4; 5; 4; 4; 4; 4; 3; 2; 3; 4; 3;
      3; 4; 3; 3; 3; 3; 2; 1; 2; 1; 2; 2; 2; 2; 2; 3; 2; 1; 1; 0; 0;
      3; 2; 1; 1; 3; 1; 2; 3; 2; 0; 1; 3; 4; 4; 2; 2; 3; 2
     ]);
    (ENGLAND,
     [
      1; 0; 0; 0; 1; 1; 1; 1; 1; 1; 1; 2; 2; 2; 2; 2; 2; 2; 2; 2; 2;
      3; 3; 3; 3; 3; 3; 3; 3; 3; 3; 3; 3; 3; 3; 3; 3; 4; 4; 4; 4; 4;
      4; 3; 4; 4; 4; 4; 5; 5; 5; 5; 5; 5; 5; 5; 5; 5; 5; 6; 6; 6; 6;
      6; 6; 6; 6; 6; 6; 6; 6; 6; 7; 7; 7; 7; 7; 7; 7; 7; 7
     ]);
    (FRANCE,
     [
      3; 3; 2; 3; 2; 2; 3; 3; 1; 2; 2; 2; 3; 3; 3; 3; 3; 4; 0; 1; 1;
      1; 2; 4; 3; 4; 4; 4; 4; 1; 0; 2; 2; 1; 1; 1; 2; 0; 2; 3; 5; 5;
      4; 4; 5; 3; 1; 2; 1; 3; 3; 2; 4; 6; 5; 3; 2; 3; 3; 2; 4; 3; 3;
      6; 6; 5; 3; 4; 4; 3; 4; 4; 4; 4; 6; 5; 5; 5; 5; 5; 5
     ]);
    (GERMANY,
     [
      3; 3; 3; 4; 2; 4; 4; 3; 3; 4; 4; 2; 1; 1; 1; 3; 2; 4; 3; 3; 2;
      1; 1; 1; 0; 2; 3; 3; 3; 2; 2; 4; 4; 3; 3; 3; 4; 2; 0; 0; 2; 2;
      1; 3; 3; 5; 3; 4; 2; 1; 1; 1; 2; 4; 3; 4; 3; 4; 3; 2; 2; 2; 2;
      5; 4; 3; 3; 5; 3; 3; 5; 4; 3; 3; 5; 6; 6; 4; 4; 5; 4
     ]);
    (ITALY,
     [
      6; 6; 5; 5; 5; 5; 5; 5; 4; 4; 4; 4; 4; 4; 4; 6; 5; 6; 4; 3; 4;
      3; 3; 4; 3; 5; 6; 6; 6; 3; 4; 3; 4; 3; 3; 3; 2; 2; 2; 3; 5; 5;
      4; 6; 5; 2; 2; 1; 1; 2; 3; 1; 4; 4; 4; 1; 1; 0; 0; 0; 3; 2; 1;
      4; 4; 3; 1; 2; 2; 1; 2; 2; 2; 2; 4; 3; 3; 3; 3; 3; 3
     ]);
    (RUSSIA,
     [
      3; 3; 3; 4; 2; 4; 3; 2; 3; 4; 3; 3; 3; 3; 3; 1; 2; 1; 4; 4; 4;
      3; 3; 2; 3; 2; 1; 0; 0; 4; 4; 5; 5; 5; 5; 5; 5; 4; 2; 2; 1; 1;
      1; 0; 0; 5; 5; 5; 4; 2; 1; 3; 0; 0; 1; 4; 5; 5; 5; 4; 1; 2; 3;
      1; 1; 1; 4; 3; 3; 5; 3; 3; 2; 2; 2; 2; 2; 2; 2; 2; 2
     ]);
    (TURKEY,
     [
      7; 7; 7; 7; 6; 7; 7; 6; 6; 6; 6; 7; 6; 7; 7; 5; 6; 5; 6; 5; 7;
      6; 6; 5; 6; 6; 5; 4; 4; 6; 7; 4; 6; 5; 5; 5; 4; 5; 5; 5; 5; 4;
      5; 4; 3; 3; 4; 3; 5; 4; 4; 4; 4; 2; 3; 2; 4; 3; 4; 4; 3; 4; 3;
      1; 1; 2; 3; 1; 3; 3; 1; 2; 3; 2; 0; 0; 1; 1; 1; 0; 1
     ])
  ].

Definition CIVIL_DISORDER_DISTS_FLEET_init : list (Power * list Z) :=
  [ (AUSTRIA,
     [
      8; 8; 7; 7; 7; 7; 7; 7; 6; 6; 6; 7; 8; 8; 8; 8; 8; 8; 6; 5; 7;
      (-1); (-1); 9; 9; 9; 10; (-1); 9; 6; (-1); 4; 6; (-1); 6; 5; 4; 5; (-1); 10; 10; 10;
      10; 11; (-1); 3; 4; 3; 5; (-1); (-1); (-1); (-1); 6; (-1); 2; 4; 3; 4; 1; (-1); 0; 0;
      6; 5; 6; 1; 3; 1; 2; 3; 2; 0; (-1); 5; 4; 4; (-1); 5; 4; 3
     ]);
    (ENGLAND,
     [
      1; 0; 0; 0; 1; 1; 1; 1; 1; 1; 1; 2; 2; 2; 2; 2; 2; 2; 2; 2; 2;
      (-1); (-1); 3; 3; 3; 4; (-1); 3; 3; (-1); 3; 3; (-1); 3; 3; 3; 4; (-1); 4; 4; 4;
      4; 5; (-1); 4; 4; 4; 5; (-1); (-1); (-1); (-1); 9; (-1); 5; 5; 5; 5; 7; (-1); (-1); 7;
      9; 8; 9; 6; 6; 6; 6; 6; 6; (-1); (-1); 8; 7; 7; (-1); 8; 7; 7
     ]);
    (FRANCE,
     [
      3; 3; 2; 3; 2; 2; 3; 3; 1; 2; 2; 2; 3; 3; 3; 3; 3; 4; 0; 1; 1;
      (-1); (-1); 4; 4; 4; 5; (-1); 4; 1; 0; 2; 2; (-1); 2; 1; 2; 0; (-1); 5; 5; 5;
      5; 6; (-1); 3; 1; 2; 1; (-1); (-1); (-1); (-1); 7; (-1); 3; 2; 3; 3; 5; (-1); (-1); 5;
      7; 6; 7; 4; 4; 4; 4; 4; 4; (-1); (-1); 6; 5; 5; (-1); 6; 5; 5
     ]);
    (GERMANY,
     [
      3; 3; 3; 5; 2; 4; 4; 3; 3; 4; 4; 2; 1; 1; 1; 3; 2; 4; 4; 4; 3;
      (-1); (-1); 1; 0; 2; 3; (-1); 4; 5; (-1); 5; 5; (-1); 5; 5; 5; 6; 0; 0; 2; 2;
      1; 3; (-1); 6; 6; 6; 7; (-1); (-1); (-1); (-1); 11; (-1); 7; 7; 7; 7; 9; (-1); (-1); 9;
      11; 10; 11; 8; 8; 8; 8; 8; 8; (-1); (-1); 10; 9; 9; (-1); 10; 9; 9
     ]);
    (ITALY,
     [
      6; 6; 5; 5; 5; 5; 5; 5; 4; 4; 4; 5; 6; 6; 6; 6; 6; 6; 4; 3; 5;
      (-1); (-1); 7; 7; 7; 8; (-1); 7; 4; (-1); 3; 4; (-1); 4; 3; 2; 3; (-1); 8; 8; 8;
      8; 9; (-1); 2; 2; 1; 2; (-1); (-1); (-1); (-1); 5; (-1); 1; 1; 0; 0; 0; (-1); (-1); 1;
      5; 4; 5; 1; 2; 2; 1; 2; 2; (-1); (-1); 4; 3; 3; (-1); 4; 3; 3
     ]);
    (RUSSIA,
     [
      3; 3; 3; 4; 2; 4; 3; 2; 3; 4; 3; 3; 3; 3; 3; 1; 2; 1; 4; 4; 4;
      (-1); (-1); 2; 3; 2; 1; 0; 0; 5; (-1); 5; 5; (-1); 5; 5; 5; 6; (-1); 3; 1; 1;
      2; 0; 0; 5; 6; 5; 7; (-1); (-1); (-1); 0; 0; (-1); 4; 6; 5; 6; 6; (-1); (-1); 6;
      1; 1; 1; 5; 3; 5; 5; 4; 4; (-1); (-1); 2; 3; 4; (-1); 2; 2; 3
     ]);
    (TURKEY,
     [
      8; 8; 7; 7; 7; 7; 7; 7; 6; 6; 6; 7; 8; 8; 8; 8; 8; 8; 6; 5; 7;
      (-1); (-1); 9; 9; 9; 10; (-1); 9; 6; (-1); 4; 6; (-1); 6; 5; 4; 5; (-1); 10; 10; 10;
      10; 11; (-1); 3; 4; 3; 5; (-1); (-1); (-1); (-1); 2; (-1); 2; 4; 3; 4; 4; (-1); (-1); 4;
      1; 1; 2; 3; 1; 3; 3; 1; 2; (-1); (-1); 0; 0; 1; (-1); 1; 0; 1
     ])
  ].

Definition CIVIL_DISORDER_DISTS_ARMY : gmap Power (list Z) :=
  map_of_init CIVIL_DISORDER_DISTS_ARMY_init.

Definition CIVIL_DISORDER_DISTS_FLEET : gmap Power (list Z) :=
  map_of_init CIVIL_DISORDER_DISTS_FLEET_init.

(** [','.join(f"{{Loc::{loc}, {i} }}" for i, loc in enumerate(sorted(LOCS)))] *)
Definition LOC_ALPHA_IDX_init : list (Loc * Z) :=
  [ (ADR, 0); (AEG, 1); (ALB, 2); (ANK, 3);
    (APU, 4); (ARM, 5); (BAL, 6); (BAR, 7);
    (BEL, 8); (BER, 9); (BLA, 10); (BOH, 11);
    (BOT, 12); (BRE, 13); (BUD, 14); (BUL, 15);
    (BUL_EC, 16); (BUL_SC, 17); (BUR, 18); (CLY, 19);
    (CON, 20); (DEN, 21); (EAS, 22); (EDI, 23);
    (ENG, 24); (FIN, 25); (GAL, 26); (GAS, 27);
    (GRE, 28); (HEL, 29); (HOL, 30); (ION, 31);
    (IRI, 32); (KIE, 33); (LON, 34); (LVN, 35);
    (LVP, 36); (LYO, 37); (MAO, 38); (MAR, 39);
    (MOS, 40); (MUN, 41); (NAF, 42); (NAO, 43);
    (NAP, 44); (NTH, 45); (NWG, 46); (NWY, 47);
    (PAR, 48); (PIC, 49); (PIE, 50); (POR, 51);
    (PRU, 52); (ROM, 53); (RUH, 54); (RUM, 55);
    (SER, 56); (SEV, 57); (SIL, 58); (SKA, 59);
    (SMY, 60); (SPA, 61); (SPA_NC, 62); (SPA_SC, 63);
    (STP, 64); (STP_NC, 65); (STP_SC, 66); (SWE, 67);
    (SYR, 68); (TRI, 69); (TUN, 70); (TUS, 71);
    (TYR, 72); (TYS, 73); (UKR, 74); (VEN, 75);
    (VIE, 76); (WAL, 77); (WAR, 78); (WES, 79);
    (YOR, 80)
  ].

Definition LOC_ALPHA_IDX : gmap Loc Z := map_of_init LOC_ALPHA_IDX_init.

(** The number of location identifiers. *)
Definition NUM_LOCS : nat := 81.

(** The sentinel of the distance tables: a unit at such an index is never
    chosen through the table. *)
Definition NEVER_DISBAND : Z := -1.

(** A distance table is complete and well shaped: it has an entry for each
    of the seven Great Powers and for nothing else, and each entry is a
    vector with one value per alphabetic location index, every value being
    a distance or the sentinel. *)
Definition distance_table_complete (table : gmap Power (list Z)) : Prop :=
  size table = 7%nat ∧
  (∀ p, is_Some (table !! p) ↔ is_great_power p) ∧
  (∀ p v, table !! p = Some v →
     length v = NUM_LOCS ∧
     (∀ l, ∃ i d, LOC_ALPHA_IDX !! l = Some i ∧ vector_at v i = Ok d) ∧
     Forall (λ d, d = NEVER_DISBAND ∨ 0 ≤ d) v).

End Tables.

(** * Phases ([phase.h]) *)

Module Phase.

(** Modelled from the spec: the [Phase] value of [phase.h], a triple of
    season, year and kind, and its short string form
    [<S|F|W><YYYY><M|R|A>]. *)
Inductive Season : Type := SPRING | FALL | WINTER.
Inductive PhaseType : Type := MOVEMENT | RETREAT | ADJUSTMENT.

Record Phase : Type := mkPhase {
  season : Season;
  year : N;
  phase_type : PhaseType
}.

#[global] Instance Season_eq_dec : EqDecision Season.
Proof. solve_decision. Defined.
#[global] Instance PhaseType_eq_dec : EqDecision PhaseType.
Proof. solve_decision. Defined.
#[global] Instance Phase_eq_dec : EqDecision Phase.
Proof. solve_decision. Defined.

Definition season_code (s : Season) : N :=
  match s with SPRING => 0 | FALL => 1 | WINTER => 2 end%N.
Definition season_of_code (n : N) : option Season :=
  match n with 0 => Some SPRING | 1 => Some FALL | 2 => Some WINTER | _ => None end%N.
Definition type_code (t : PhaseType) : N :=
  match t with MOVEMENT => 0 | RETREAT => 1 | ADJUSTMENT => 2 end%N.
Definition type_of_code (n : N) : option PhaseType :=
  match n with 0 => Some MOVEMENT | 1 => Some RETREAT | 2 => Some ADJUSTMENT | _ => None end%N.

#[global] Instance Phase_countable : Countable Phase.
Proof.
  refine (inj_countable
            (λ p, (season_code (season p), year p, type_code (phase_type p)))
            (λ '(s, y, t), s' ← season_of_code s; t' ← type_of_code t;
                           Some (mkPhase s' y t')) _).
  by intros [[] y []].
Defined.

(** The order of phases in play, which is the key order of the histories:
    by year, then season, then kind. *)
Definition phase_ltb (p q : Phase) : bool :=
  if decide (year p = year q) then
    if decide (season p = season q) then
      (type_code (phase_type p) <? type_code (phase_type q))%N
    else (season_code (season p) <? season_code (season q))%N
  else (year p <? year q)%N.

(** Modelled from the spec: the season and kind pairs that are phases of
    play: movement and retreat in spring and fall, adjustment in winter. *)
Definition is_phase (p : Phase) : bool :=
  match season p, phase_type p with
  | SPRING, MOVEMENT | SPRING, RETREAT
  | FALL, MOVEMENT | FALL, RETREAT
  | WINTER, ADJUSTMENT => true
  | _, _ => false
  end.

(** Modelled from the spec: the phase sequencer's steps. [q] can be the
    phase that play enters on leaving [p]: a retreat phase follows its
    movement phase when it is not elided, fall movement follows spring,
    winter adjustment follows fall when it is not elided, and the year
    increments only on entering spring movement. *)
Definition follows (p q : Phase) : bool :=
  let same := bool_decide (year q = year p) in
  let next := bool_decide (year q = year p + 1)%N in
  match season p, phase_type p, season q, phase_type q with
  | SPRING, MOVEMENT, SPRING, RETREAT => same
  | SPRING, MOVEMENT, FALL, MOVEMENT => same
  | SPRING, RETREAT, FALL, MOVEMENT => same
  | FALL, MOVEMENT, FALL, RETREAT => same
  | FALL, MOVEMENT, WINTER, ADJUSTMENT => same
  | FALL, MOVEMENT, SPRING, MOVEMENT => next
  | FALL, RETREAT, WINTER, ADJUSTMENT => same
  | FALL, RETREAT, SPRING, MOVEMENT => next
  | WINTER, ADJUSTMENT, SPRING, MOVEMENT => next
  | _, _, _, _ => false
  end.

Fixpoint chain_from (p : Phase) (l : list Phase) : bool :=
  match l with
  | [] => true
  | q :: l' => follows p q && chain_from q l'
  end.

(** A sequence of phases that play can go through, one step at a time. *)
Definition reachable_sequence (l : list Phase) : bool :=
  match l with
  | [] => true
  | p :: l' => is_phase p && chain_from p l'
  end.

Definition phase_not_after (p q : Phase) : Prop := phase_ltb q p = false.

#[global] Instance phase_not_after_dec (p q : Phase) : Decision (phase_not_after p q).
Proof. unfold phase_not_after. apply _. Defined.

(** The archived phases, in the order of play, followed by the current
    phase, are a sequence that play can go through. *)
Definition phase_sequence_ok (archived : gset Phase) (current : Phase) : bool :=
  reachable_sequence (merge_sort phase_not_after (elements archived) ++ [current]).

Definition season_char (s : Season) : ascii :=
  match s with SPRING => "S" | FALL => "F" | WINTER => "W" end%char.
Definition type_char (t : PhaseType) : ascii :=
  match t with MOVEMENT => "M" | RETREAT => "R" | ADJUSTMENT => "A" end%char.

Definition season_of_char (c : ascii) : option Season :=
  if decide (c = "S"%char) then Some SPRING
  else if decide (c = "F"%char) then Some FALL
  else if decide (c = "W"%char) then Some WINTER
  else None.
Definition type_of_char (c : ascii) : option PhaseType :=
  if decide (c = "M"%char) then Some MOVEMENT
  else if decide (c = "R"%char) then Some RETREAT
  else if decide (c = "A"%char) then Some ADJUSTMENT
  else None.

(** Decimal numerals. *)
Definition N_to_string (n : N) : string := NilEmpty.string_of_uint (N.to_uint n).
Definition N_of_string (s : string) : option N :=
  N.of_uint <$> NilEmpty.uint_of_string s.

(** [Phase::to_string()]: the short form, e.g. [S1901M]. *)
Definition to_string (p : Phase) : string :=
  String (season_char (season p))
         (N_to_string (year p) +:+ String (type_char (phase_type p)) EmptyString).

(** Splits a non-empty string into all but its last character, and its last
    character. *)
Fixpoint split_last (s : string) : option (string * ascii) :=
  match s with
  | EmptyString => None
  | String c s' =>
      match split_last s' with
      | None => Some (EmptyString, c)
      | Some (front, l) => Some (String c front, l)
      end
  end.

(** Parsing of the short form; an unknown phase string is a lookup
    failure. *)
Definition from_string (s : string) : result Phase :=
  let bad := Err (JFail ("Bad phase string: " +:+ s)) in
  match s with
  | String c rest =>
      match season_of_char c, split_last rest with
      | Some se, Some (digits, k) =>
          match N_of_string digits, type_of_char k with
          | Some y, Some t => Ok (mkPhase se y t)
          | _, _ => bad
          end
      | _, _ => bad
      end
  | EmptyString => bad
  end.

End Phase.

(** * JSON values ([thirdparty/nlohmann/json.hpp]) *)

Module Json.

(** A JSON document. An object is a map from keys to values (nlohmann's
    object type is a [std::map]), so the order in which keys are written
    does not matter. *)
Inductive json : Type :=
| JNull
| JBool (b : bool)
| JInt (z : Z)
| JString (s : string)
| JArray (l : list json)
| JObject (o : gmap string json).

Definition corrupt {A} (what : string) : result A :=
  Err (CorruptSnapshotError what).

(** [j.at(key)] on an object. *)
Definition get (key : string) (o : gmap string json) : result json :=
  match o !! key with
  | Some j => Ok j
  | None => corrupt ("missing key " +:+ key)
  end.

Definition as_string (j : json) : result string :=
  match j with JString s => Ok s | _ => corrupt "expected a string" end.

Definition as_object (j : json) : result (gmap string json) :=
  match j with JObject o => Ok o | _ => corrupt "expected an object" end.

Definition as_array (j : json) : result (list json) :=
  match j with JArray l => Ok l | _ => corrupt "expected an array" end.

Definition get_string (key : string) (o : gmap string json) : result string :=
  j ← get key o; as_string j.

Definition string_array (l : list string) : json := JArray (JString <$> l).

Definition as_string_array (j : json) : result (list string) :=
  l ← as_array j; mapM as_string l.

Section maps.
Context {K V : Type} `{Countable K}.

(** Writes a map as a JSON object: each key is printed by [ek], each
    value by [ev]. *)
Definition encode_entry (ek : K → result string) (ev : K → V → result json)
    (kv : K * V) : result (string * json) :=
  s ← ek kv.1; j ← ev kv.1 kv.2; Ok (s, j).

Definition encode_map (ek : K → result string) (ev : K → V → result json)
    (m : gmap K V) : result json :=
  kvs ← mapM (encode_entry ek ev) (map_to_list m);
  Ok (JObject (list_to_map kvs)).

(** Reads a JSON object back into a map: each key is parsed by [dk],
    each value by [dv], which is told the key it belongs to. *)
Definition decode_entry (dk : string → result K) (dv : K → json → result V)
    (sj : string * json) : result (K * V) :=
  k ← dk sj.1; v ← dv k sj.2; Ok (k, v).

Definition decode_map (dk : string → result K) (dv : K → json → result V)
    (j : json) : result (gmap K V) :=
  o ← as_object j;
  kvs ← mapM (decode_entry dk dv) (map_to_list o);
  Ok (list_to_map kvs).

(** An entry survives the trip through the codec: its key prints to a
    string that parses back to the key, and its value prints to a document
    that the decoder accepts. *)
Definition entry_round_trips (ek : K → result string) (ev : K → V → result json)
    (dk : string → result K) (dv : K → json → result V) (k : K) (v : V) : Prop :=
  ∃ s j v', ek k = Ok s ∧ dk s = Ok k ∧ ev k v = Ok j ∧ dv k j = Ok v'.

(** [v'] is what reading back the snapshot of [v] gives. *)
Definition reloads_as (ev : K → V → result json) (dv : K → json → result V)
    (k : K) (v v' : V) : Prop :=
  ∃ j, ev k v = Ok j ∧ dv k j = Ok v'.
End maps.

End Json.

(** * The Game aggregate ([game.h]) *)

Module Game.
Import Power Phase Json.

(** Modelled from the spec: the [Message] value of [message.h]. Within a
    phase a message is keyed by the time it was sent. *)
Record Message : Type := mkMessage {
  sender : Power;
  recipient : Power;
  body : string
}.

Section Game.
(** [GameState] ([game_state.h]) and [Order] ([order.h]) are opaque to
    the Game object: it only stores their values and hands them to the
    collaborators below. A [shared_ptr<GameState>] is modelled by the state
    it points to: an archived state is never written again. *)
Context {GameState Order : Type}.

(** The members of [class Game], with the public [game_id] first. *)
Record Game : Type := mkGame {
  game_id : string;
  state_ : GameState;
  staged_orders_ : gmap Power (list Order);
  state_history_ : gmap Phase GameState;
  order_history_ : gmap Phase (gmap Power (list Order));
  logs_ : gmap Phase (list string);
  message_history_ : gmap Phase (gmap N Message);
  rules_ : list string;
  draw_on_stalemate_years_ : Z;
  exception_on_convoy_paradox_ : bool
}.

(** The default member initializers of the class. *)
Definition default_rules : list string := ["NO_PRESS"; "POWER_CHOICE"]%string.
Definition default_draw_on_stalemate_years : Z := -1.
Definition default_exception_on_convoy_paradox : bool := false.

(** A method that mutates the object and may throw: the outcome of the
    call, and the object as the call leaves it. *)
Definition method (A : Type) : Type := Game → result A * Game.

(** ** Methods defined in the header *)

(** [void set_exception_on_convoy_paradox()] *)
Definition set_exception_on_convoy_paradox (g : Game) : Game :=
  {| game_id := game_id g; state_ := state_ g;
     staged_orders_ := staged_orders_ g;
     state_history_ := state_history_ g;
     order_history_ := order_history_ g;
     logs_ := logs_ g; message_history_ := message_history_ g;
     rules_ := rules_ g;
     draw_on_stalemate_years_ := draw_on_stalemate_years_ g;
     exception_on_convoy_paradox_ := true |}.

(** [void set_draw_on_stalemate_years(int year)] *)
Definition set_draw_on_stalemate_years (year : Z) (g : Game) : Game :=
  {| game_id := game_id g; state_ := state_ g;
     staged_orders_ := staged_orders_ g;
     state_history_ := state_history_ g;
     order_history_ := order_history_ g;
     logs_ := logs_ g; message_history_ := message_history_ g;
     rules_ := rules_ g;
     draw_on_stalemate_years_ := year;
     exception_on_convoy_paradox_ := exception_on_convoy_paradox_ g |}.

(** [std::string map_name() { return "standard"; }] *)
Definition map_name (g : Game) : string := "standard".

(** [get_state_history()], [get_order_history()], [get_message_history()] *)
Definition get_state_history (g : Game) : gmap Phase GameState := state_history_ g.
Definition get_order_history (g : Game) : gmap Phase (gmap Power (list Order)) :=
  order_history_ g.
Definition get_message_history (g : Game) : gmap Phase (gmap N Message) :=
  message_history_ g.

(** ** Collaborators

    What the Game object calls but does not define: the state object
    ([game_state.h]), the order parser ([order.h]) and the snapshot
    codec of a state ([json.h]). *)
Context (get_phase : GameState → Phase).
Context (state_compute_board_hash : GameState → Z).
Context (state_process :
           bool → gmap Power (list Order) → GameState → result GameState).
Context (state_clear_possible_orders : GameState → GameState).
Context (state_to_json : GameState → result json).
Context (state_from_json : Phase → json → result GameState).
Context (order_to_string : Order → string).
Context (order_from_string : string → Order).
Context (initial_state : GameState).

(** [size_t compute_board_hash() const] *)
Definition compute_board_hash (g : Game) : Z :=
  state_compute_board_hash (state_ g).


(** [std::string get_phase_short()] *)
Definition get_phase_short (g : Game) : string :=
  Phase.to_string (get_phase (state_ g)).

(** ** Construction *)

(** Modelled from the spec: the body of [Game(int draw_on_stalemate_years = -1)]
    in [game.cc]. The argument, when given, is stored; every other member
    takes its default initializer and the state is the opening position. *)
Definition new_game (draw_on_stalemate_years : option Z) : Game :=
  {| game_id := "";
     state_ := initial_state;
     staged_orders_ := ∅;
     state_history_ := ∅;
     order_history_ := ∅;
     logs_ := ∅;
     message_history_ := ∅;
     rules_ := default_rules;
     draw_on_stalemate_years_ :=
       default default_draw_on_stalemate_years draw_on_stalemate_years;
     exception_on_convoy_paradox_ := default_exception_on_convoy_paradox |}.

(** ** Advancing the game *)

(** [bool is_game_done() const] is defined in [game.cc]; [process] only
    consults its answer. *)
Context (is_game_done : Game → bool).

(** Modelled from the spec: [void process()] of [game.cc]. It refuses a
    finished game; otherwise it runs the solver for the phase and, when
    the solver succeeds, archives the state and the staged orders under
    the current phase, installs the successor state and clears the staged
    orders. A solver failure leaves the game as it was. *)
Definition process : method () := λ g,
  if is_game_done g
  then (Err (IllegalStateError "process() called on a finished game"), g)
  else
    match state_process (exception_on_convoy_paradox_ g)
                        (staged_orders_ g) (state_ g) with
    | Err e => (Err e, g)
    | Ok next =>
        let ph := get_phase (state_ g) in
        (Ok (),
         {| game_id := game_id g;
            state_ := next;
            staged_orders_ := ∅;
            state_history_ := <[ph := state_ g]> (state_history_ g);
            order_history_ := <[ph := staged_orders_ g]> (order_history_ g);
            logs_ := logs_ g;
            message_history_ := message_history_ g;
            rules_ := rules_ g;
            draw_on_stalemate_years_ := draw_on_stalemate_years_ g;
            exception_on_convoy_paradox_ := exception_on_convoy_paradox_ g |})
    end.

(** ** Staging, logs and press *)

(** Modelled from the spec: [void set_orders(power, orders)] of
    [game.cc]. The power is looked up by name, which aborts the call for
    an unknown name; the parsed orders replace whatever that power had
    staged. *)
Definition set_orders (power : string) (orders : list string) : method () := λ g,
  match power_from_str power with
  | Err e => (Err e, g)
  | Ok p =>
      (Ok (),
       {| game_id := game_id g; state_ := state_ g;
          staged_orders_ := <[p := order_from_string <$> orders]> (staged_orders_ g);
          state_history_ := state_history_ g;
          order_history_ := order_history_ g;
          logs_ := logs_ g; message_history_ := message_history_ g;
          rules_ := rules_ g;
          draw_on_stalemate_years_ := draw_on_stalemate_years_ g;
          exception_on_convoy_paradox_ := exception_on_convoy_paradox_ g |})
  end.

(** Modelled from the spec: [void add_log(body)] of [game.cc]; the line is
    appended to the log of the current phase. *)
Definition add_log (line : string) (g : Game) : Game :=
  let ph := get_phase (state_ g) in
  {| game_id := game_id g; state_ := state_ g;
     staged_orders_ := staged_orders_ g;
     state_history_ := state_history_ g;
     order_history_ := order_history_ g;
     logs_ := <[ph := default [] (logs_ g !! ph) ++ [line]]> (logs_ g);
     message_history_ := message_history_ g;
     rules_ := rules_ g;
     draw_on_stalemate_years_ := draw_on_stalemate_years_ g;
     exception_on_convoy_paradox_ := exception_on_convoy_paradox_ g |}.

(** Modelled from the spec: [void add_message(sender, recipient, body,
    time_sent = 0)] of [game.cc]. [now] is the reading of the injected
    clock, used when [time_sent] is 0; the message is filed under the
    current phase at its timestamp. *)
Definition add_message (now : N) (from to : Power) (text : string)
    (time_sent : N) (g : Game) : Game :=
  let ph := get_phase (state_ g) in
  let t := if decide (time_sent = 0%N) then now else time_sent in
  {| game_id := game_id g; state_ := state_ g;
     staged_orders_ := staged_orders_ g;
     state_history_ := state_history_ g;
     order_history_ := order_history_ g;
     logs_ := logs_ g;
     message_history_ :=
       <[ph := <[t := mkMessage from to text]>
                 (default ∅ (message_history_ g !! ph))]> (message_history_ g);
     rules_ := rules_ g;
     draw_on_stalemate_years_ := draw_on_stalemate_years_ g;
     exception_on_convoy_paradox_ := exception_on_convoy_paradox_ g |}.

(** [void py_add_message(sender, recipient, body, time_sent = 0)]: both
    names are looked up before the message is added (the sender first
    here; C++ leaves the order of the two lookups open, which only decides
    whose name an error reports when both are unknown). *)
Definition py_add_message (now : N) (from to : string) (text : string)
    (time_sent : N) : method () := λ g,
  match power_from_str from with
  | Err e => (Err e, g)
  | Ok s =>
      match power_from_str to with
      | Err e => (Err e, g)
      | Ok r => (Ok (), add_message now s r text time_sent g)
      end
  end.

(** Modelled from the spec: [void rollback_messages_to_timestamp(t)] of
    [game.cc]; every message sent after [t] is removed, in every phase. *)
Definition rollback_messages_to_timestamp (t : N) (g : Game) : Game :=
  {| game_id := game_id g; state_ := state_ g;
     staged_orders_ := staged_orders_ g;
     state_history_ := state_history_ g;
     order_history_ := order_history_ g;
     logs_ := logs_ g;
     message_history_ :=
       (λ msgs : gmap N Message, filter (λ kv, (kv.1 ≤ t)%N) msgs)
         <$> message_history_ g;
     rules_ := rules_ g;
     draw_on_stalemate_years_ := draw_on_stalemate_years_ g;
     exception_on_convoy_paradox_ := exception_on_convoy_paradox_ g |}.

(** Modelled from the spec: [void clear_old_all_possible_orders()] of
    [game.cc]; the memoized possible orders live in the state object. *)
Definition clear_old_all_possible_orders (g : Game) : Game :=
  {| game_id := game_id g; state_ := state_clear_possible_orders (state_ g);
     staged_orders_ := staged_orders_ g;
     state_history_ := state_history_ g;
     order_history_ := order_history_ g;
     logs_ := logs_ g; message_history_ := message_history_ g;
     rules_ := rules_ g;
     draw_on_stalemate_years_ := draw_on_stalemate_years_ g;
     exception_on_convoy_paradox_ := exception_on_convoy_paradox_ g |}.

(** ** Rollback *)

Definition before {V} (ph : Phase) (keep_ph : bool) (m : gmap Phase V) : gmap Phase V :=
  filter (λ kv, phase_ltb kv.1 ph = true ∨ (keep_ph = true ∧ kv.1 = ph)) m.

(** Modelled from the spec: the private [rollback_to_phase] of [game.cc].
    The phase is looked up by its short name and must be the current
    phase or one in the history; the result is a copy whose histories are
    truncated at that phase and whose state is the one the phase was
    entered with. The flags say whether the phase's own messages, orders
    and logs survive. The game id and the configuration are those of the
    original. *)
Definition rollback_to_phase (phase_s : string)
    (preserve_phase_messages preserve_phase_orders preserve_phase_logs : bool)
    (g : Game) : result Game :=
  ph ← Phase.from_string phase_s;
  let current := bool_decide (get_phase (state_ g) = ph) in
  s ← (if current then Ok (state_ g)
       else match state_history_ g !! ph with
            | Some s => Ok s
            | None => Err (IllegalStateError ("phase not in history: " +:+ phase_s))
            end);
  Ok {| game_id := game_id g;
        state_ := s;
        staged_orders_ :=
          if preserve_phase_orders
          then (if current then staged_orders_ g
                else default ∅ (order_history_ g !! ph))
          else ∅;
        state_history_ := before ph false (state_history_ g);
        order_history_ := before ph false (order_history_ g);
        logs_ := before ph preserve_phase_logs (logs_ g);
        message_history_ := before ph preserve_phase_messages (message_history_ g);
        rules_ := rules_ g;
        draw_on_stalemate_years_ := draw_on_stalemate_years_ g;
        exception_on_convoy_paradox_ := exception_on_convoy_paradox_ g |}.

(** [Game rolled_back_to_phase_start(phase_s)] *)
Definition rolled_back_to_phase_start (phase_s : string) (g : Game) : result Game :=
  rollback_to_phase phase_s false false false g.

(** [Game rolled_back_to_phase_end(phase_s)] *)
Definition rolled_back_to_phase_end (phase_s : string) (g : Game) : result Game :=
  rollback_to_phase phase_s true true true g.

(** ** Snapshots *)

Definition phase_key (ph : Phase) : result string := Ok (Phase.to_string ph).
Definition timestamp_key (t : N) : result string := Ok (N_to_string t).
Definition timestamp_of_key (s : string) : result N :=
  match N_of_string s with
  | Some t => Ok t
  | None => corrupt ("bad timestamp " +:+ s)
  end.

Definition orders_to_json (orders : list Order) : json :=
  string_array (order_to_string <$> orders).
Definition orders_from_json (j : json) : result (list Order) :=
  l ← as_string_array j; Ok (order_from_string <$> (l : list string)).

Definition message_to_json (m : Message) : result json :=
  s ← power_str (sender m);
  r ← power_str (recipient m);
  Ok (JObject (list_to_map
        [("sender", JString s); ("recipient", JString r);
         ("body", JString (body m))]%string)).
Definition message_from_json (j : json) : result Message :=
  o ← as_object j;
  s ← get_string "sender" o;
  from ← power_from_str s;
  r ← get_string "recipient" o;
  to ← power_from_str r;
  text ← get_string "body" o;
  Ok (mkMessage from to text).

(** Modelled from the spec: [std::string to_json()] of [game.cc], up to
    the text form of the document, which is the JSON library's. The
    snapshot is an object with the keys [id], [map], [rules], [phase],
    [state], [state_history], [order_history], [messages] and [logs];
    phases are written in their short form, powers by name and
    timestamps as decimal numerals. *)
Definition to_json (g : Game) : result json :=
  st ← state_to_json (state_ g);
  sh ← encode_map phase_key (λ _ s, state_to_json s) (state_history_ g);
  oh ← encode_map phase_key
         (λ _ po, encode_map power_str (λ _ os, Ok (orders_to_json os)) po)
         (order_history_ g);
  ms ← encode_map phase_key
         (λ _ tm, encode_map timestamp_key (λ _ m, message_to_json m) tm)
         (message_history_ g);
  lg ← encode_map phase_key (λ _ l, Ok (string_array l)) (logs_ g);
  Ok (JObject (list_to_map
        [("id", JString (game_id g));
         ("map", JString (map_name g));
         ("rules", string_array (rules_ g));
         ("phase", JString (get_phase_short g));
         ("state", st);
         ("state_history", sh);
         ("order_history", oh);
         ("messages", ms);
         ("logs", lg)]%string)).

(** Modelled from the spec: [Game(const std::string &json_str)] of
    [game.cc], which is all that [from_json] calls. The members are read
    from the keys that [to_json] writes; nothing is staged, and the two
    configuration members, which have no key, keep their default
    initializers. A document that lacks a key or holds a value of the
    wrong shape, a state that the state codec refuses (inconsistent units
    or centers) and a phase sequence that play cannot go through are
    corrupt snapshots. *)
Definition from_json (j : json) : result Game :=
  o ← as_object j;
  id ← get_string "id" o;
  j_rules ← get "rules" o;
  rules ← as_string_array j_rules;
  phase_s ← get_string "phase" o;
  ph ← Phase.from_string phase_s;
  j_state ← get "state" o;
  st ← state_from_json ph j_state;
  j_sh ← get "state_history" o;
  sh ← decode_map Phase.from_string state_from_json j_sh;
  j_oh ← get "order_history" o;
  oh ← decode_map Phase.from_string
         (λ _, decode_map power_from_str (λ _, orders_from_json)) j_oh;
  j_ms ← get "messages" o;
  ms ← decode_map Phase.from_string
         (λ _, decode_map timestamp_of_key (λ _, message_from_json)) j_ms;
  j_lg ← get "logs" o;
  lg ← decode_map Phase.from_string (λ _, as_string_array) j_lg;
  if phase_sequence_ok (dom sh) ph then
    Ok {| game_id := id;
          state_ := st;
          staged_orders_ := ∅;
          state_history_ := sh;
          order_history_ := oh;
          logs_ := lg;
          message_history_ := ms;
          rules_ := rules;
          draw_on_stalemate_years_ := default_draw_on_stalemate_years;
          exception_on_convoy_paradox_ := default_exception_on_convoy_paradox |}
  else corrupt "unreachable phase sequence".


(** What a snapshot can carry: every state is one the state codec
    accepts and is archived under its own phase, and the powers that key
    orders or exchange messages are real powers (they have a name). *)
Context (state_wf : GameState → Prop).

Definition snapshot_wf (g : Game) : Prop :=
  state_wf (state_ g) ∧
  map_Forall (λ ph s, get_phase s = ph ∧ state_wf s) (state_history_ g) ∧
  map_Forall (λ _ po, map_Forall (λ p (_ : list Order), is_great_power p) po)
             (order_history_ g) ∧
  map_Forall (λ _ tm, map_Forall (λ (_ : N) m, is_great_power (sender m)
                                             ∧ is_great_power (recipient m)) tm)
             (message_history_ g).

(** A game that can be written and read back: what [snapshot_wf] asks,
    and phases that play can have gone through. *)
Definition loadable (g : Game) : Prop :=
  snapshot_wf g ∧
  phase_sequence_ok (dom (state_history_ g)) (get_phase (state_ g)) = true.

(** ** The public operations, as a caller sees them *)

Inductive op : Type :=
| OpSetOrders (power : string) (orders : list string)
| OpProcess
| OpSetExceptionOnConvoyParadox
| OpSetDrawOnStalemateYears (year : Z)
| OpClearOldAllPossibleOrders
| OpAddMessage (now : N) (from to : Power) (text : string) (time_sent : N)
| OpPyAddMessage (now : N) (from to : string) (text : string) (time_sent : N)
| OpAddLog (line : string)
| OpRollbackMessagesToTimestamp (t : N)
| OpRolledBackToPhaseStart (phase_s : string)
| OpRolledBackToPhaseEnd (phase_s : string).

(** The game a caller holds after an operation: the mutated object, or,
    for the two operations that return a rolled-back copy, that copy. A
    call that throws leaves the caller with the game it had. *)
Definition step (o : op) (g : Game) : Game :=
  match o with
  | OpSetOrders power orders => (set_orders power orders g).2
  | OpProcess => (process g).2
  | OpSetExceptionOnConvoyParadox => set_exception_on_convoy_paradox g
  | OpSetDrawOnStalemateYears y => set_draw_on_stalemate_years y g
  | OpClearOldAllPossibleOrders => clear_old_all_possible_orders g
  | OpAddMessage now s r text t => add_message now s r text t g
  | OpPyAddMessage now s r text t => (py_add_message now s r text t g).2
  | OpAddLog line => add_log line g
  | OpRollbackMessagesToTimestamp t => rollback_messages_to_timestamp t g
  | OpRolledBackToPhaseStart p =>
      match rolled_back_to_phase_start p g with Ok g' => g' | Err _ => g end
  | OpRolledBackToPhaseEnd p =>
      match rolled_back_to_phase_end p g with Ok g' => g' | Err _ => g end
  end.

Definition run (ops : list op) (g : Game) : Game :=
  foldl (λ g o, step o g) g ops.

(** A game all of whose powers are real powers: it can be written to a
    snapshot, and so can every game it turns into. *)
Definition game_wf (g : Game) : Prop :=
  snapshot_wf g ∧
  map_Forall (λ p (_ : list Order), is_great_power p) (staged_orders_ g).

(** Operations that name their powers by strings always name real powers;
    [add_message], which takes [Power] values, has to be given real
    powers. *)
Definition op_wf (o : op) : Prop :=
  match o with
  | OpAddMessage _ from to _ _ => is_great_power from ∧ is_great_power to
  | _ => True
  end.

End Game.

Arguments Game : clear implicits.

End Game.

(** * A board for the standard map

    The state object and the order type of the design document, with which
    the Game object can be run and written to a snapshot: a state keeps the
    seven entries that the state object of a snapshot has, and an order is
    kept as it was submitted. *)

Module Board.
Import Power Loc Tables Phase Json.

Inductive UnitType : Type := ARMY | FLEET.

(** Modelled from the spec: a [Unit] is a pair of a type and a location. *)
Record Unit : Type := mkUnit {
  unit_type : UnitType;
  unit_loc : Loc
}.

(** The [builds] entry of a power: how many units it may build (or, when
    negative, must disband) and where it may build. *)
Record Builds : Type := mkBuilds {
  count : Z;
  build_homes : list Loc
}.

(** Modelled from the spec: a [GameState] as its state object shows it: the
    phase, and for each power its units, the retreats open to its
    dislodged units, its supply centers, its home centers, the provinces
    under its influence, whether it is in civil disorder, and its
    builds. *)
Record GameState : Type := mkState {
  phase : Phase;
  units : gmap Power (list Unit);
  retreats : gmap Power (gmap Loc (list Loc));
  centers : gmap Power (list Loc);
  homes : gmap Power (list Loc);
  influence : gmap Power (list Loc);
  civil_disorder : gmap Power bool;
  builds : gmap Power Builds
}.

(** Modelled from the spec: an order as the histories keep it, the text as
    it was submitted. *)
Definition Order : Type := string.

#[global] Instance UnitType_eq_dec : EqDecision UnitType.
Proof. solve_decision. Defined.
#[global] Instance Unit_eq_dec : EqDecision Unit.
Proof. solve_decision. Defined.

(** [A PAR], [F STP/SC] *)
Definition unit_to_string (u : Unit) : string :=
  String (match unit_type u with ARMY => "A" | FLEET => "F" end)%char
         (String " "%char (loc_str (unit_loc u))).

Definition loc_from_str (s : string) : result Loc :=
  match list_find (λ l, loc_str l = s) LOCS with
  | Some (_, l) => Ok l
  | None => Err (JFail ("Bad loc: " +:+ s))
  end.

Definition unit_from_string (s : string) : result Unit :=
  match s with
  | String c (String sp rest) =>
      if decide (sp = " "%char) then
        l ← loc_from_str rest;
        if decide (c = "A"%char) then Ok (mkUnit ARMY l)
        else if decide (c = "F"%char) then Ok (mkUnit FLEET l)
        else corrupt ("bad unit " +:+ s)
      else corrupt ("bad unit " +:+ s)
  | _ => corrupt ("bad unit " +:+ s)
  end.

(** The values of the entries of a state object. *)
Definition units_to_json (us : list Unit) : result json :=
  Ok (string_array (unit_to_string <$> us)).
Definition units_from_json (j : json) : result (list Unit) :=
  l ← as_string_array j; mapM unit_from_string l.

Definition locs_to_json (ls : list Loc) : result json :=
  Ok (string_array (loc_str <$> ls)).
Definition locs_from_json (j : json) : result (list Loc) :=
  l ← as_string_array j; mapM loc_from_str l.

Definition retreats_to_json (r : gmap Loc (list Loc)) : result json :=
  encode_map (λ l, Ok (loc_str l)) (λ _, locs_to_json) r.
Definition retreats_from_json (j : json) : result (gmap Loc (list Loc)) :=
  decode_map loc_from_str (λ _, locs_from_json) j.

Definition flag_to_json (b : bool) : result json :=
  Ok (JInt (if b then 1 else 0)).
Definition flag_from_json (j : json) : result bool :=
  match j with
  | JInt 0 => Ok false
  | JInt 1 => Ok true
  | _ => corrupt "expected 0 or 1"
  end.

Definition builds_to_json (b : Builds) : result json :=
  hs ← locs_to_json (build_homes b);
  Ok (JObject (list_to_map [("count", JInt (count b)); ("homes", hs)]%string)).
Definition builds_from_json (j : json) : result Builds :=
  o ← as_object j;
  jc ← get "count" o;
  c ← match jc with JInt c => Ok c | _ => corrupt "expected a number" end;
  jh ← get "homes" o;
  hs ← locs_from_json jh;
  Ok (mkBuilds c hs).

(** An entry of a state object: a map from the name of a power. *)
Definition per_power_to_json {A} (to : A → result json) (m : gmap Power A) : result json :=
  encode_map power_str (λ _, to) m.
Definition per_power_from_json {A} (from : json → result A) (j : json) :
    result (gmap Power A) :=
  decode_map power_from_str (λ _, from) j.

(** Modelled from the spec: the province a location belongs to; a coasted
    variant belongs to its parent. *)
Definition province (l : Loc) : Loc :=
  match l with
  | BUL_EC | BUL_SC => BUL
  | SPA_NC | SPA_SC => SPA
  | STP_NC | STP_SC => STP
  | _ => l
  end.

Definition all_of {A} (m : gmap Power (list A)) : list A :=
  concat (map_to_list m).*2.

(** Modelled from the spec: units and centers are consistent when no
    province holds two units and no supply center is listed twice, for one
    power or for two. *)
Definition consistent (us : gmap Power (list Unit)) (cs : gmap Power (list Loc)) : bool :=
  bool_decide (NoDup ((λ u, province (unit_loc u)) <$> all_of us))
  && bool_decide (NoDup (all_of cs)).

(** Modelled from the spec: the state object of a snapshot, with its seven
    entries, each a map from the name of a power. *)
Definition state_to_json (s : GameState) : result json :=
  us ← per_power_to_json units_to_json (units s);
  rs ← per_power_to_json retreats_to_json (retreats s);
  cs ← per_power_to_json locs_to_json (centers s);
  hs ← per_power_to_json locs_to_json (homes s);
  fs ← per_power_to_json locs_to_json (influence s);
  ds ← per_power_to_json flag_to_json (civil_disorder s);
  bs ← per_power_to_json builds_to_json (builds s);
  Ok (JObject (list_to_map
        [("units", us); ("retreats", rs); ("centers", cs); ("homes", hs);
         ("influence", fs); ("civil_disorder", ds); ("builds", bs)]%string)).

(** Modelled from the spec: the reading of a state object, under the phase
    it is filed under; inconsistent units or centers make the snapshot
    corrupt. *)
Definition state_from_json (ph : Phase) (j : json) : result GameState :=
  o ← as_object j;
  ju ← get "units" o;
  us ← per_power_from_json units_from_json ju;
  jr ← get "retreats" o;
  rs ← per_power_from_json retreats_from_json jr;
  jc ← get "centers" o;
  cs ← per_power_from_json locs_from_json jc;
  jh ← get "homes" o;
  hs ← per_power_from_json locs_from_json jh;
  jf ← get "influence" o;
  fs ← per_power_from_json locs_from_json jf;
  jd ← get "civil_disorder" o;
  ds ← per_power_from_json flag_from_json jd;
  jb ← get "builds" o;
  bs ← per_power_from_json builds_from_json jb;
  if consistent us cs then Ok (mkState ph us rs cs hs fs ds bs)
  else corrupt "inconsistent units/centers".

(** Every entry of a state is the entry of a real power. *)
Definition great_keys {A} (m : gmap Power A) : Prop :=
  map_Forall (λ p (_ : A), is_great_power p) m.

Definition state_wf (s : GameState) : Prop :=
  great_keys (units s) ∧ great_keys (retreats s) ∧ great_keys (centers s) ∧
  great_keys (homes s) ∧ great_keys (influence s) ∧
  great_keys (civil_disorder s) ∧ great_keys (builds s).

#[global] Instance state_wf_dec (s : GameState) : Decision (state_wf s).
Proof. unfold state_wf, great_keys, is_great_power. apply _. Defined.

(** A state that a snapshot can carry: its entries are those of real
    powers, and its units and centers are consistent. *)
Definition state_ok (s : GameState) : Prop :=
  state_wf s ∧ consistent (units s) (centers s) = true.

#[global] Instance state_ok_dec (s : GameState) : Decision (state_ok s).
Proof. unfold state_ok. apply _. Defined.

(** ** Board hash *)

Definition UINT64_MOD : Z := 2 ^ 64.
Definition mix (h x : Z) : Z := (h * 1099511628211 + x) mod UINT64_MOD.

Definition alpha_idx (l : Loc) : Z := default 0 (LOC_ALPHA_IDX !! l).

Definition owned {A} (m : gmap Power (list A)) (p : Power) : list A :=
  default [] (m !! p).

(** The triples (location index, unit type, owner) and the pairs (centre
    index, owner) of a board, each as one number, in ascending order. *)
Definition unit_codes (s : GameState) : list Z :=
  merge_sort Z.le
    (p ← POWERS; u ← owned (units s) p;
     [(alpha_idx (unit_loc u) * 2
       + match unit_type u with ARMY => 0 | FLEET => 1 end) * 8 + to_size_t p]).

Definition centre_codes (s : GameState) : list Z :=
  merge_sort Z.le
    (p ← POWERS; l ← owned (centers s) p; [alpha_idx l * 8 + to_size_t p]).

(** Modelled from the spec: [GameState::compute_board_hash], a 64-bit hash
    over the phase, the sorted units and the sorted centres. The design
    document fixes what is hashed, not how it is mixed; [mix] is a
    multiply-and-add step modulo 2^64. *)
Definition compute_board_hash (s : GameState) : Z :=
  let ph := phase s in
  let h0 := foldl mix 14695981039346656037
              [Z.of_N (season_code (season ph)); Z.of_N (year ph);
               Z.of_N (type_code (phase_type ph))] in
  foldl mix (mix (foldl mix h0 (unit_codes s)) (-1)) (centre_codes s).

(** ** Running a game on the board *)

Definition get_phase (s : GameState) : Phase := phase s.

(** The board memoizes nothing. *)
Definition state_clear_possible_orders (s : GameState) : GameState := s.

Definition next_movement_phase (ph : Phase) : Phase :=
  match season ph with
  | SPRING => mkPhase FALL (year ph) MOVEMENT
  | _ => mkPhase SPRING (year ph + 1) MOVEMENT
  end.

(** A stand-in for the solvers, which adjudicates as if every unit held:
    the board is unchanged, nobody retreats or adjusts, and play moves on
    to the next movement phase. *)
Definition state_process (exception_on_convoy_paradox : bool)
    (orders : gmap Power (list Order)) (s : GameState) : result GameState :=
  Ok {| phase := next_movement_phase (phase s);
        units := units s; retreats := retreats s; centers := centers s;
        homes := homes s; influence := influence s;
        civil_disorder := civil_disorder s; builds := builds s |}.

(** Modelled from the spec: the solo-victory clause of [is_game_done]: some
    power owns at least 18 supply centers. *)
Definition solo_victory (s : GameState) : bool :=
  bool_decide (Exists (λ p, (18 ≤ length (owned (centers s) p))%nat) POWERS).

Definition is_game_done (g : Game.Game GameState Order) : bool :=
  solo_victory (Game.state_ g).

(** An entry with the same value for each of the seven powers. *)
Definition for_each_power {A} (a : A) : gmap Power A :=
  list_to_map ((λ p, (p, a)) <$> POWERS).

Definition home_centers : gmap Power (list Loc) :=
  list_to_map
    [ (AUSTRIA, [BUD; TRI; VIE]);
      (ENGLAND, [EDI; LON; LVP]);
      (FRANCE, [BRE; MAR; PAR]);
      (GERMANY, [BER; KIE; MUN]);
      (ITALY, [NAP; ROM; VEN]);
      (RUSSIA, [MOS; SEV; STP; WAR]);
      (TURKEY, [ANK; CON; SMY]) ].

(** The opening position of the standard game, Spring 1901. *)
Definition initial_state : GameState :=
  {| phase := mkPhase SPRING 1901 MOVEMENT;
     units := list_to_map
       [ (AUSTRIA, [mkUnit ARMY BUD; mkUnit ARMY VIE; mkUnit FLEET TRI]);
         (ENGLAND, [mkUnit FLEET EDI; mkUnit FLEET LON; mkUnit ARMY LVP]);
         (FRANCE, [mkUnit FLEET BRE; mkUnit ARMY MAR; mkUnit ARMY PAR]);
         (GERMANY, [mkUnit FLEET KIE; mkUnit ARMY BER; mkUnit ARMY MUN]);
         (ITALY, [mkUnit FLEET NAP; mkUnit ARMY ROM; mkUnit ARMY VEN]);
         (RUSSIA, [mkUnit ARMY WAR; mkUnit ARMY MOS; mkUnit FLEET SEV;
                   mkUnit FLEET STP_SC]);
         (TURKEY, [mkUnit FLEET ANK; mkUnit ARMY CON; mkUnit ARMY SMY]) ];
     retreats := for_each_power ∅;
     centers := home_centers;
     homes := home_centers;
     influence := home_centers;
     civil_disorder := for_each_power false;
     builds := for_each_power (mkBuilds 0 []) |}.

(** A late position in which France holds eighteen centers. *)
Definition french_victory : GameState :=
  {| phase := mkPhase SPRING 1911 MOVEMENT;
     units := list_to_map [ (FRANCE, [mkUnit ARMY PAR; mkUnit ARMY MUN]) ];
     retreats := for_each_power ∅;
     centers := list_to_map
       [ (FRANCE, [BRE; MAR; PAR; SPA; POR; BEL; HOL; LON; LVP; EDI;
                   MUN; KIE; BER; DEN; ROM; NAP; VEN; TUN]);
         (TURKEY, [ANK; CON; SMY]) ];
     homes := home_centers;
     influence := list_to_map
       [ (FRANCE, [BRE; MAR; PAR; SPA; POR; BEL; HOL; LON; LVP; EDI;
                   MUN; KIE; BER; DEN; ROM; NAP; VEN; TUN; BUR; PIC]);
         (TURKEY, [ANK; CON; SMY]) ];
     civil_disorder := for_each_power false;
     builds := for_each_power (mkBuilds 0 []) |}.

(** The Game object over the board. *)
Definition new_game : option Z → Game.Game GameState Order :=
  Game.new_game initial_state.
Definition process : Game.method () :=
  Game.process get_phase state_process is_game_done.
Definition step : Game.op → Game.Game GameState Order → Game.Game GameState Order :=
  Game.step get_phase state_process state_clear_possible_orders
            (λ s : string, s) is_game_done.
Definition run : list Game.op → Game.Game GameState Order → Game.Game GameState Order :=
  Game.run get_phase state_process state_clear_possible_orders
           (λ s : string, s) is_game_done.
Definition to_json : Game.Game GameState Order → result json :=
  Game.to_json get_phase state_to_json (λ o : Order, o).
Definition from_json : json → result (Game.Game GameState Order) :=
  Game.from_json state_from_json (λ s : string, s).

(** A finished game. *)
Definition finished_game : Game.Game GameState Order :=
  {| Game.game_id := "finale";
     Game.state_ := french_victory;
     Game.staged_orders_ := {[ FRANCE := ["A PAR H"; "A MUN - BER"]%string ]};
     Game.state_history_ := {[ mkPhase SPRING 1901 MOVEMENT := initial_state ]};
     Game.order_history_ :=
       {[ mkPhase SPRING 1901 MOVEMENT := {[ FRANCE := ["A PAR - BUR"]%string ]} ]};
     Game.logs_ := ∅;
     Game.message_history_ := ∅;
     Game.rules_ := Game.default_rules;
     Game.draw_on_stalemate_years_ := -1;
     Game.exception_on_convoy_paradox_ := false |}.

(** A game in progress: two phases played, with press and a log line. *)
Definition game_in_progress : Game.Game GameState Order :=
  run [ Game.OpSetOrders "FRANCE" ["A PAR - BUR"; "A MAR - SPA"; "F BRE - MAO"]%string;
        Game.OpPyAddMessage 1000 "FRANCE" "ENGLAND" "Channel stays empty?" 0;
        Game.OpSetOrders "ENGLAND" ["F LON - NTH"]%string;
        Game.OpProcess;
        Game.OpAddLog "spring done";
        Game.OpSetOrders "RUSSIA" ["F STP/SC - BOT"]%string;
        Game.OpAddMessage 2000 RUSSIA TURKEY "Juggernaut" 1500;
        Game.OpProcess;
        Game.OpSetOrders "ITALY" ["A VEN H"]%string ]
      (new_game None).


(** A game that can be written and read back. *)
Definition loadable (g : Game.Game GameState Order) : Prop :=
  Game.loadable get_phase state_ok g.









End Board.

Import Power Loc Tables Phase Json.

(** * Properties of the powers *)

Lemma power_from_str_loop_miss (s : string) (n i : nat) :
  (i + n = 7)%nat →
  (∀ name, name ∈ drop i POWERS_STR → name ≠ s) →
  power_from_str_loop s i n = Err (JFail ("Bad arg to power_from_str: " +:+ s)).
Proof.
  revert i. induction n as [|n IH]; intros i Hi Hmiss; [done|].
  assert (Hlt : (i < 7)%nat) by lia.
  assert (∃ p name, POWERS !! i = Some p ∧ power_str p = Ok name
                    ∧ POWERS_STR !! i = Some name) as (p & name & Hp & Hn & Hs).
  { do 7 (destruct i as [|i]; [do 2 eexists; repeat split; reflexivity|]). lia. }
  cbn [power_from_str_loop]. rewrite Hp. cbn. rewrite Hn. cbn.
  destruct (decide (name = s)) as [->|Hne].
  - exfalso. eapply Hmiss; [|done].
    apply list_elem_of_lookup. exists 0%nat. by rewrite lookup_drop, Nat.add_0_r.
  - apply IH; [lia|]. intros name' Hin. apply Hmiss.
    rewrite (drop_S _ name i Hs). by right.
Qed.

Lemma power_from_str_power_str_aux (p : Power) :
  is_great_power p →
  ∃ name, power_str p = Ok name ∧ power_from_str name = Ok p.
Proof.
  intros Hp. destruct p; [done|..]; eexists; split; reflexivity.
Qed.

(** C6. [power_from_str s] returns the power whose canonical name is [s]
    when [s] names one of the seven Great Powers; for every other string
    the loop falls through to [JFAIL] and the call is aborted with the
    lookup failure, no power being returned. *)
Theorem power_from_str_spec (s : string) :
  (∀ p, is_great_power p → power_str p = Ok s → power_from_str s = Ok p) ∧
  ((∀ p, is_great_power p → power_str p ≠ Ok s) →
   power_from_str s = Err (JFail ("Bad arg to power_from_str: " +:+ s))).
Proof.
  split.
  - intros p Hp Hs. destruct p; [done|..]; vm_compute in Hs;
      injection Hs as <-; reflexivity.
  - intros Hnot. apply power_from_str_loop_miss; [done|].
    intros name Hin ->. cbn in Hin.
    repeat (apply elem_of_cons in Hin as [->|Hin];
            [exfalso;
             first [ by apply (Hnot AUSTRIA) | by apply (Hnot ENGLAND)
                   | by apply (Hnot FRANCE) | by apply (Hnot GERMANY)
                   | by apply (Hnot ITALY) | by apply (Hnot RUSSIA)
                   | by apply (Hnot TURKEY) ]|]).
    by apply elem_of_nil in Hin.
Qed.

Lemma power_from_str_spec_witness :
  power_from_str "FRANCE" = Ok FRANCE ∧
  power_from_str "PRUSSIA" = Err (JFail "Bad arg to power_from_str: PRUSSIA").
Proof.
  split.
  - apply (proj1 (power_from_str_spec "FRANCE") FRANCE); [discriminate|reflexivity].
  - apply (proj2 (power_from_str_spec "PRUSSIA")).
    intros p _. by destruct p; vm_compute.
Defined.

(** C8. For each of the seven Great Powers, printing the power with
    [power_str] and reading the name back with [power_from_str] gives the
    power again. *)
Theorem power_from_str_power_str (p : Power) :
  is_great_power p →
  ∃ name, power_str p = Ok name ∧ power_from_str name = Ok p.
Proof. apply power_from_str_power_str_aux. Qed.

Lemma power_from_str_power_str_witness :
  ∃ name, power_str RUSSIA = Ok name ∧ power_from_str name = Ok RUSSIA.
Proof. apply (power_from_str_power_str RUSSIA). discriminate. Defined.

(** C9. [power_str] is defined exactly on the seven Great Powers. For a
    Great Power the index [static_cast<size_t>(power) - 1] lies inside
    [POWERS_STR] and the checked lookup returns a name; for [NONE] the
    unsigned subtraction wraps around to the largest [size_t], which is
    past the end of the table, and the lookup throws instead of returning
    a name. *)
Theorem power_str_defined (p : Power) :
  (is_great_power p →
   0 ≤ power_str_index p < Z.of_nat (length POWERS_STR) ∧
   ∃ name, power_str p = Ok name) ∧
  (p = NONE →
   power_str_index p = 2 ^ SIZE_BITS - 1 ∧
   Z.of_nat (length POWERS_STR) ≤ power_str_index p ∧
   power_str p = Err OutOfRange).
Proof.
  split.
  - intros Hp. destruct p; [done|..];
      (split; [by vm_compute|eexists; reflexivity]).
  - intros ->. repeat split. by vm_compute.
Qed.

Lemma power_str_defined_witness :
  (0 ≤ power_str_index TURKEY < Z.of_nat (length POWERS_STR) ∧
   ∃ name, power_str TURKEY = Ok name) ∧
  (power_str_index NONE = 2 ^ SIZE_BITS - 1 ∧
   Z.of_nat (length POWERS_STR) ≤ power_str_index NONE ∧
   power_str NONE = Err OutOfRange).
Proof.
  split.
  - apply (proj1 (power_str_defined TURKEY)). discriminate.
  - apply (proj2 (power_str_defined NONE)). reflexivity.
Defined.

(** * Properties of the static tables *)

Lemma distance_vector_shape (v : list Z) :
  length v = NUM_LOCS →
  ∀ l, ∃ i d, LOC_ALPHA_IDX !! l = Some i ∧ vector_at v i = Ok d.
Proof.
  intros Hlen l.
  assert (∃ i, LOC_ALPHA_IDX !! l = Some i ∧ 0 ≤ i < 81) as (i & Hi & Hr).
  { destruct l; eexists; (split; [vm_compute; reflexivity|lia]). }
  destruct (lookup_lt_is_Some_2 v (Z.to_nat i)) as [d Hd].
  { rewrite Hlen. unfold NUM_LOCS. lia. }
  exists i, d. split; [done|]. unfold vector_at.
  rewrite bool_decide_eq_true_2, Hd; [done|]. rewrite Hlen. unfold NUM_LOCS. lia.
Qed.

Lemma distance_table_complete_intro (init : list (Power * list Z)) :
  init.*1 = POWERS →
  Forall (λ pv, length pv.2 = NUM_LOCS
                ∧ Forall (λ d, d = NEVER_DISBAND ∨ 0 ≤ d) pv.2) init →
  distance_table_complete (map_of_init init).
Proof.
  intros Hkeys Hvals.
  assert (Hnodup : NoDup init.*1).
  { rewrite Hkeys. apply (bool_decide_unpack _). by vm_compute. }
  assert (Hdom : ∀ p, is_Some (map_of_init init !! p) ↔ is_great_power p).
  { intros p. unfold map_of_init.
    rewrite <-not_eq_None_Some, <-not_elem_of_list_to_map, Hkeys.
    split.
    - intros Hin ->. apply Hin. apply (bool_decide_unpack _). by vm_compute.
    - intros Hp Hnot. apply Hnot. destruct p; [done|..];
        apply (bool_decide_unpack _); by vm_compute. }
  split; [|split; [done|]].
  - unfold map_of_init. rewrite <-length_map_to_list.
    rewrite (Permutation_length (map_to_list_to_map init Hnodup)).
    by rewrite <-(length_fmap fst), Hkeys.
  - intros p v Hpv.
    apply elem_of_list_to_map_2 in Hpv.
    rewrite Forall_forall in Hvals. destruct (Hvals _ Hpv) as [Hlen Hall].
    split; [done|]. split; [|done]. by apply distance_vector_shape.
Qed.

(** C3. The two civil-disorder distance tables are complete and well
    shaped. Each is written with exactly seven entries, one per Great
    Power and in the order of [POWERS], so the map holds exactly one vector
    for each Great Power and none for [NONE]; each of the fourteen vectors
    has length 81 and therefore holds exactly one value for every
    alphabetic location index 0..80; and every value is either a distance
    or the sentinel -1. *)
Theorem civil_disorder_tables_complete :
  CIVIL_DISORDER_DISTS_ARMY_init.*1 = POWERS ∧
  CIVIL_DISORDER_DISTS_FLEET_init.*1 = POWERS ∧
  distance_table_complete CIVIL_DISORDER_DISTS_ARMY ∧
  distance_table_complete CIVIL_DISORDER_DISTS_FLEET.
Proof.
  split; [reflexivity|]. split; [reflexivity|].
  split; (apply distance_table_complete_intro; [reflexivity|]);
    apply (bool_decide_unpack _); by vm_compute.
Qed.

(** C4. [LOC_ALPHA_IDX] is the canonical alphabetic index of the 81
    location identifiers. It is written with 81 entries and holds 81;
    every location, the six coasted variants included, has an index
    between 0 and 80; every index between 0 and 80 belongs to exactly one
    location; and a location has a smaller index than another exactly when
    its name comes first in alphabetical order. *)
Theorem LOC_ALPHA_IDX_canonical :
  length LOC_ALPHA_IDX_init = 81%nat ∧
  size LOC_ALPHA_IDX = 81%nat ∧
  (∀ l, ∃ i, LOC_ALPHA_IDX !! l = Some i ∧ 0 ≤ i ≤ 80) ∧
  (∀ i, 0 ≤ i ≤ 80 →
     ∃ l, LOC_ALPHA_IDX !! l = Some i ∧
          ∀ l', LOC_ALPHA_IDX !! l' = Some i → l' = l) ∧
  (∀ l, l ∈ COASTED → is_Some (LOC_ALPHA_IDX !! l)) ∧
  (∀ l1 l2 i1 i2,
     LOC_ALPHA_IDX !! l1 = Some i1 → LOC_ALPHA_IDX !! l2 = Some i2 →
     (i1 < i2 ↔ String.ltb (loc_str l1) (loc_str l2) = true)).
Proof.
  assert (Htotal : ∀ l, ∃ i, LOC_ALPHA_IDX !! l = Some i ∧ 0 ≤ i ≤ 80).
  { intros l. destruct l; eexists; (split; [vm_compute; reflexivity|lia]). }
  split; [reflexivity|]. split; [by vm_compute|]. split; [done|].
  split; [|split].
  - intros i Hi.
    assert (Hall : Forall (λ i, ∃ l, LOC_ALPHA_IDX !! l = Some i ∧
                                     ∀ l', LOC_ALPHA_IDX !! l' = Some i → l' = l)
                          (seqZ 0 81)).
    { apply (bool_decide_unpack _). by vm_compute. }
    rewrite Forall_forall in Hall. apply Hall. apply elem_of_seqZ. lia.
  - intros l _. destruct (Htotal l) as (i & -> & _). by eexists.
  - assert (Hall : ∀ l1 l2,
               default 0 (LOC_ALPHA_IDX !! l1) < default 0 (LOC_ALPHA_IDX !! l2)
               ↔ String.ltb (loc_str l1) (loc_str l2) = true).
    { apply (bool_decide_unpack _). by vm_compute. }
    intros l1 l2 i1 i2 H1 H2. specialize (Hall l1 l2).
    by rewrite H1, H2 in Hall.
Qed.

Lemma LOC_ALPHA_IDX_canonical_witness :
  (∃ l, LOC_ALPHA_IDX !! l = Some 17 ∧
        ∀ l', LOC_ALPHA_IDX !! l' = Some 17 → l' = l) ∧
  is_Some (LOC_ALPHA_IDX !! STP_SC) ∧
  (61 < 62 ↔ String.ltb (loc_str SPA) (loc_str SPA_NC) = true).
Proof.
  destruct LOC_ALPHA_IDX_canonical as (_ & _ & _ & Huniq & Hcoast & Halpha).
  split; [apply (Huniq 17); lia|].
  split; [apply (Hcoast STP_SC); apply (bool_decide_unpack _); by vm_compute|].
  apply (Halpha SPA SPA_NC 61 62); reflexivity.
Defined.

(** * Properties of the Game object *)

Section GameProperties.
Import Game.
Context {GameState Order : Type}.
Context (get_phase : GameState → Phase).
Context (state_process :
           bool → gmap Power (list Order) → GameState → result GameState).
Context (state_clear_possible_orders : GameState → GameState).
Context (order_from_string : string → Order).
Context (initial_state : GameState).
Context (is_game_done : Game GameState Order → bool).

Abbreviation Game := (Game GameState Order).
Abbreviation step := (step get_phase state_process state_clear_possible_orders
                       order_from_string is_game_done).
Abbreviation run := (run get_phase state_process state_clear_possible_orders
                     order_from_string is_game_done).

Lemma rollback_to_phase_flag (phase_s : string) (pm po pl : bool) (g g' : Game) :
  rollback_to_phase get_phase phase_s pm po pl g = Ok g' →
  exception_on_convoy_paradox_ g' = exception_on_convoy_paradox_ g.
Proof.
  unfold rollback_to_phase. intros Hr.
  destruct (Phase.from_string phase_s) as [ph|]; [|done]. cbn in Hr.
  destruct (bool_decide _); cbn in Hr.
  - by injection Hr as <-.
  - destruct (state_history_ g !! ph); cbn in Hr; [|done]. by injection Hr as <-.
Qed.

Lemma step_flag (o : op) (g : Game) :
  o ≠ OpSetExceptionOnConvoyParadox →
  exception_on_convoy_paradox_ (step o g) = exception_on_convoy_paradox_ g.
Proof.
  intros Ho. destruct o; cbn; try done.
  - unfold set_orders. by destruct (power_from_str power).
  - unfold process. destruct (is_game_done g); [done|].
    by destruct (state_process _ _ _).
  - unfold py_add_message.
    destruct (power_from_str from); [|done]. by destruct (power_from_str to).
  - unfold rolled_back_to_phase_start.
    destruct (rollback_to_phase _ _ _ _ _ g) eqn:Hr; [|done].
    by eapply rollback_to_phase_flag.
  - unfold rolled_back_to_phase_end.
    destruct (rollback_to_phase _ _ _ _ _ g) eqn:Hr; [|done].
    by eapply rollback_to_phase_flag.
Qed.

(** C2. On a game for which [is_game_done] answers true, [process]
    raises [IllegalStateError] and the game is left exactly as it was:
    the current state and with it the phase, the state and order
    histories and the staged orders are those the call found. *)
Theorem process_refuses_finished_game (g : Game) :
  is_game_done g = true →
  let '(outcome, g') := process get_phase state_process is_game_done g in
  (∃ msg, outcome = Err (IllegalStateError msg)) ∧
  g' = g ∧
  state_ g' = state_ g ∧
  get_phase (state_ g') = get_phase (state_ g) ∧
  state_history_ g' = state_history_ g ∧
  order_history_ g' = order_history_ g ∧
  staged_orders_ g' = staged_orders_ g.
Proof.
  intros Hdone. unfold process. rewrite Hdone. split; [by eexists|done].
Qed.

(** C5. A game constructed without an argument has
    [draw_on_stalemate_years] equal to -1 and
    [exception_on_convoy_paradox] false; a game constructed with an
    explicit [draw_on_stalemate_years] stores that value. *)
Theorem new_game_configuration :
  draw_on_stalemate_years_ (new_game (Order := Order) initial_state None) = -1 ∧
  exception_on_convoy_paradox_ (new_game (Order := Order) initial_state None) = false ∧
  ∀ years : Z,
    draw_on_stalemate_years_ (new_game (Order := Order) initial_state (Some years))
    = years.
Proof. done. Qed.

(** C7. [map_name] answers "standard" for every game, and so in every
    state a game can reach from its construction through the public
    operations. *)
Theorem map_name_standard :
  (∀ g : Game, map_name g = "standard"%string) ∧
  (∀ (years : option Z) (ops : list (op)),
     map_name (run ops (new_game initial_state years)) = "standard"%string).
Proof. done. Qed.

(** C10. The [exception_on_convoy_paradox] flag only ever goes up. A new
    game has it false; [set_exception_on_convoy_paradox] sets it to true;
    every other public operation leaves it as it found it; hence once it
    is true it is true after any further sequence of public
    operations. *)
Theorem exception_on_convoy_paradox_monotone :
  (∀ years, exception_on_convoy_paradox_
              (new_game (Order := Order) initial_state years) = false) ∧
  (∀ g : Game, exception_on_convoy_paradox_ (set_exception_on_convoy_paradox g)
               = true) ∧
  (∀ (o : op) (g : Game),
     o ≠ OpSetExceptionOnConvoyParadox →
     exception_on_convoy_paradox_ (step o g) = exception_on_convoy_paradox_ g) ∧
  (∀ (ops : list (op)) (g : Game),
     exception_on_convoy_paradox_ g = true →
     exception_on_convoy_paradox_ (run ops g) = true).
Proof.
  split; [done|]. split; [done|]. split; [apply step_flag|].
  intros ops. induction ops as [|o ops IH]; intros g Hg; [done|].
  cbn. apply IH.
  destruct o; try (by rewrite step_flag); done.
Qed.

End GameProperties.

(** ** Games that can be written to a snapshot *)

Lemma power_from_str_loop_in (s : string) (n i : nat) (p : Power) :
  power_from_str_loop s i n = Ok p → p ∈ POWERS.
Proof.
  revert i. induction n as [|n IH]; intros i; cbn [power_from_str_loop]; [done|].
  destruct (POWERS !! i) as [q|] eqn:Hq; [|done].
  destruct (power_str q) as [name|]; cbn [mbind result_bind]; [|done].
  destruct (decide (name = s)); [|by apply IH].
  intros [= <-]. by eapply list_elem_of_lookup_2.
Qed.

Lemma power_from_str_great (s : string) (p : Power) :
  power_from_str s = Ok p → is_great_power p.
Proof.
  intros Hp%power_from_str_loop_in ->.
  by apply (bool_decide_pack _) in Hp.
Qed.

Section SnapshotInvariant.
Import Game.
Context {GameState Order : Type}.
Context (get_phase : GameState → Phase).
Context (state_process :
           bool → gmap Power (list Order) → GameState → result GameState).
Context (state_clear_possible_orders : GameState → GameState).
Context (order_from_string : string → Order).
Context (initial_state : GameState).
Context (is_game_done : Game GameState Order → bool).
Context (state_wf : GameState → Prop).

Abbreviation Game := (Game GameState Order).
Abbreviation step := (step get_phase state_process state_clear_possible_orders
                           order_from_string is_game_done).
Abbreviation run := (run get_phase state_process state_clear_possible_orders
                         order_from_string is_game_done).
Abbreviation game_wf := (game_wf (Order := Order) get_phase state_wf).

(** The states the collaborators produce are states the codec accepts. *)
Hypothesis initial_state_wf : state_wf initial_state.
Hypothesis state_process_wf : ∀ b orders s s',
  state_wf s → state_process b orders s = Ok s' → state_wf s'.
Hypothesis state_clear_possible_orders_wf : ∀ s,
  state_wf s → state_wf (state_clear_possible_orders s).

(** Splits [game_wf] into its five parts. *)
Ltac wf_split := split; [split; [|split; [|split]]|].

Lemma new_game_wf (years : option Z) : game_wf (new_game initial_state years).
Proof.
  wf_split; try done; cbn; apply map_Forall_empty.
Qed.

Lemma before_Forall {V} (P : Phase → V → Prop) (ph : Phase) (keep : bool)
    (m : gmap Phase V) :
  map_Forall P m → map_Forall P (before ph keep m).
Proof.
  intros Hm k v Hk. apply map_lookup_filter_Some in Hk as [Hk _]. by apply Hm.
Qed.

Lemma rollback_to_phase_wf (phase_s : string) (pm po pl : bool) (g g' : Game) :
  game_wf g → rollback_to_phase get_phase phase_s pm po pl g = Ok g' → game_wf g'.
Proof.
  intros [(Hst & Hsh & Hoh & Hms) Hstaged]. unfold rollback_to_phase.
  destruct (Phase.from_string phase_s) as [ph|]; cbn [mbind result_bind]; [|done].
  assert (Hstaged' : ∀ current : bool,
             map_Forall (λ p (_ : list Order), is_great_power p)
               (if po then if current then staged_orders_ g
                           else default ∅ (order_history_ g !! ph)
                else ∅)).
  { intros current. destruct po; [|apply map_Forall_empty].
    destruct current; [done|].
    destruct (order_history_ g !! ph) as [po'|] eqn:Hpo; cbn.
    - by apply (Hoh ph).
    - apply map_Forall_empty. }
  destruct (bool_decide (get_phase (state_ g) = ph)); cbn [mbind result_bind].
  - intros [= <-]. wf_split; cbn; auto using before_Forall. apply (Hstaged' true).
  - destruct (state_history_ g !! ph) as [s|] eqn:Hs; cbn [mbind result_bind]; [|done].
    intros [= <-]. wf_split; cbn; auto using before_Forall.
    + by apply (Hsh ph s).
    + apply (Hstaged' false).
Qed.

(** Every public operation keeps a game writable. *)
Lemma step_wf (o : op) (g : Game) : op_wf o → game_wf g → game_wf (step o g).
Proof.
  intros Ho Hg. pose proof Hg as [(Hst & Hsh & Hoh & Hms) Hstaged].
  destruct o; cbn [Game.step].
  - unfold set_orders. destruct (power_from_str power) as [p|] eqn:Hp; [|done].
    wf_split; try done. cbn.
    apply map_Forall_insert_2; [|done]. by eapply power_from_str_great.
  - unfold process. destruct (is_game_done g); [done|].
    destruct (state_process _ _ _) as [next|] eqn:Hnext; [|done].
    wf_split; cbn.
    + by eapply state_process_wf.
    + by apply map_Forall_insert_2.
    + by apply map_Forall_insert_2.
    + done.
    + apply map_Forall_empty.
  - done.
  - done.
  - wf_split; try done. cbn. by apply state_clear_possible_orders_wf.
  - destruct Ho as [Hfrom Hto]. wf_split; try done. cbn.
    apply map_Forall_insert_2; [|done].
    apply map_Forall_insert_2; [done|].
    destruct (message_history_ g !! get_phase (state_ g)) as [tm|] eqn:Htm; cbn.
    + by apply (Hms _ _ Htm).
    + apply map_Forall_empty.
  - unfold py_add_message.
    destruct (power_from_str from) as [s|] eqn:Hs; [|done].
    destruct (power_from_str to) as [r|] eqn:Hr; [|done].
    wf_split; try done. cbn.
    apply map_Forall_insert_2; [|done].
    apply map_Forall_insert_2; [by split; eapply power_from_str_great|].
    destruct (message_history_ g !! get_phase (state_ g)) as [tm|] eqn:Htm; cbn.
    + by apply (Hms _ _ Htm).
    + apply map_Forall_empty.
  - done.
  - wf_split; try done. cbn.
    apply map_Forall_fmap. intros ph tm Htm. cbn.
    intros ts msg Hm. apply map_lookup_filter_Some in Hm as [Hm _].
    by apply (Hms ph tm Htm ts msg).
  - unfold rolled_back_to_phase_start.
    destruct (rollback_to_phase _ _ _ _ _ g) eqn:Hr; [|done].
    by eapply rollback_to_phase_wf.
  - unfold rolled_back_to_phase_end.
    destruct (rollback_to_phase _ _ _ _ _ g) eqn:Hr; [|done].
    by eapply rollback_to_phase_wf.
Qed.

(** Hence every game played from a new game can be written. *)
Lemma reachable_wf (years : option Z) (ops : list op) :
  Forall op_wf ops → game_wf (run ops (new_game initial_state years)).
Proof.
  generalize (new_game_wf years).
  generalize (new_game (Order := Order) initial_state years).
  induction ops as [|o ops IH]; intros g Hg Hops; [done|].
  apply Forall_cons in Hops as [Ho Hops]. cbn. apply IH; [|done].
  by apply step_wf.
Qed.

End SnapshotInvariant.

(** * Properties of the snapshot codec *)

(** ** Traversals that may fail *)

Section traversals.
Context {A B : Type} (f : A → result B).




End traversals.


(** ** Maps written as objects *)

Section map_codec.
Context {K V : Type} `{Countable K}.
Context (ek : K → result string) (ev : K → V → result json).
Context (dk : string → result K) (dv : K → json → result V).

Abbreviation entry_ok := (entry_round_trips ek ev dk dv).
Abbreviation reloads := (reloads_as ev dv).






End map_codec.

(** ** Keys: phases, timestamps, powers *)







(** ** The snapshot of a game *)


Section SnapshotRoundTrip.
Import Game.
Context {GameState Order : Type}.
Context (get_phase : GameState → Phase).
Context (state_compute_board_hash : GameState → Z).
Context (state_to_json : GameState → result json).
Context (state_from_json : Phase → json → result GameState).
Context (order_to_string : Order → string).
Context (order_from_string : string → Order).
Context (state_wf : GameState → Prop).

Abbreviation Game := (Game GameState Order).
Abbreviation to_json := (to_json get_phase state_to_json order_to_string).
Abbreviation from_json := (from_json state_from_json order_from_string).

(** The contract of the state codec: the snapshot of a state it accepts
    reads back, under the phase of that state, as that state. *)
Hypothesis state_codec : ∀ s, state_wf s →
  ∃ j, state_to_json s = Ok j ∧ state_from_json (get_phase s) j = Ok s.

(** The contract of the order codec: an order reads back from its text. *)
Hypothesis order_codec : ∀ o, order_from_string (order_to_string o) = o.








End SnapshotRoundTrip.

(** * The board as a state object *)












(** * The snapshot of a game, read back *)



(** * The statements above, run on concrete games *)


Lemma process_refuses_finished_game_witness :
  Board.is_game_done Board.finished_game = true ∧
  let '(outcome, g') := Board.process Board.finished_game in
  (∃ msg, outcome = Err (IllegalStateError msg)) ∧
  g' = Board.finished_game ∧
  Game.state_ g' = Game.state_ Board.finished_game ∧
  Board.get_phase (Game.state_ g') = Board.get_phase (Game.state_ Board.finished_game) ∧
  Game.state_history_ g' = Game.state_history_ Board.finished_game ∧
  Game.order_history_ g' = Game.order_history_ Board.finished_game ∧
  Game.staged_orders_ g' = Game.staged_orders_ Board.finished_game.
Proof.
  split; [by vm_compute|].
  apply (process_refuses_finished_game Board.get_phase Board.state_process
           Board.is_game_done Board.finished_game).
  by vm_compute.
Defined.

Lemma exception_on_convoy_paradox_monotone_witness :
  let ops := [Game.OpProcess; Game.OpSetDrawOnStalemateYears 3;
              Game.OpRolledBackToPhaseStart "S1901M"; Game.OpAddLog "again"] in
  let g := Game.set_exception_on_convoy_paradox Board.game_in_progress in
  Game.exception_on_convoy_paradox_ Board.game_in_progress = false ∧
  Game.exception_on_convoy_paradox_ g = true ∧
  Game.exception_on_convoy_paradox_ (Board.step Game.OpProcess g)
  = Game.exception_on_convoy_paradox_ g ∧
  Game.exception_on_convoy_paradox_ (Board.run ops g) = true.
Proof.
  destruct (exception_on_convoy_paradox_monotone
              Board.get_phase Board.state_process
              Board.state_clear_possible_orders (λ s : string, s)
              Board.initial_state Board.is_game_done)
    as (Hnew & Hset & Hother & Hrun).
  split; [by vm_compute|]. split; [apply Hset|].
  split; [by apply Hother|]. apply Hrun. apply Hset.
Defined.

(** * Worked examples *)

Example power_names :
  power_str FRANCE = Ok "FRANCE"%string ∧
  power_str NONE = Err OutOfRange ∧
  power_from_str "TURKEY" = Ok TURKEY ∧
  power_from_str "turkey" = Err (JFail "Bad arg to power_from_str: turkey").
Proof. by vm_compute. Qed.

Example phase_strings :
  Phase.to_string (mkPhase WINTER 1902 ADJUSTMENT) = "W1902A"%string ∧
  Phase.from_string "W1902A" = Ok (mkPhase WINTER 1902 ADJUSTMENT) ∧
  Phase.from_string "X1902A" = Err (JFail "Bad phase string: X1902A").
Proof. by vm_compute. Qed.

Example coast_indices :
  LOC_ALPHA_IDX !! BUL = Some 15 ∧ LOC_ALPHA_IDX !! BUL_EC = Some 16 ∧
  LOC_ALPHA_IDX !! BUL_SC = Some 17 ∧ LOC_ALPHA_IDX !! BUR = Some 18.
Proof. by vm_compute. Qed.

Example distance_lookups :
  (v ← default (Err OutOfRange) (Ok <$> CIVIL_DISORDER_DISTS_ARMY !! TURKEY);
   vector_at v 80) = Ok 1 ∧
  (v ← default (Err OutOfRange) (Ok <$> CIVIL_DISORDER_DISTS_FLEET !! AUSTRIA);
   vector_at v 21) = Ok NEVER_DISBAND ∧
  CIVIL_DISORDER_DISTS_FLEET !! NONE = None.
Proof. by vm_compute. Qed.

Example game_in_progress_phase :
  Game.get_phase_short Board.get_phase Board.game_in_progress = "S1902M"%string ∧
  Board.is_game_done Board.game_in_progress = false ∧
  Board.is_game_done Board.finished_game = true.
Proof. by vm_compute. Qed.

Example rollback_keeps_identity :
  match Game.rolled_back_to_phase_start Board.get_phase "F1901M"
          Board.game_in_progress with
  | Ok g => Game.get_phase_short Board.get_phase g = "F1901M"%string
            ∧ Game.game_id g = Game.game_id Board.game_in_progress
            ∧ Game.staged_orders_ g = ∅
            ∧ size (Game.state_history_ g) = 1%nat
  | Err _ => False
  end ∧
  Game.rolled_back_to_phase_start Board.get_phase "F1905M" Board.game_in_progress
  = Err (IllegalStateError "phase not in history: F1905M").
Proof. by vm_compute. Qed.

(** * Further properties of [power.cc] *)

Lemma power_from_str_loop_name (s : string) (n i : nat) (p : Power) :
  power_from_str_loop s i n = Ok p → power_str p = Ok s.
Proof.
  revert i. induction n as [|n IH]; intros i; cbn [power_from_str_loop]; [done|].
  destruct (POWERS !! i) as [q|]; [|done].
  destruct (power_str q) as [name|] eqn:Hq; cbn [mbind result_bind]; [|done].
  destruct (decide (name = s)) as [->|]; [|by apply IH].
  by intros [= <-].
Qed.

Lemma power_str_named_great (p : Power) (s : string) :
  power_str p = Ok s → is_great_power p.
Proof. by intros Hs ->. Qed.

Lemma power_from_str_of_name (p : Power) (s : string) :
  power_str p = Ok s → power_from_str s = Ok p.
Proof.
  intros Hs. destruct p; [done|..]; vm_compute in Hs; injection Hs as <-;
    reflexivity.
Qed.

Lemma power_from_str_loop_outcome (s : string) (n i : nat) :
  (i + n = 7)%nat →
  (∃ p, power_from_str_loop s i n = Ok p) ∨
  power_from_str_loop s i n = Err (JFail ("Bad arg to power_from_str: " +:+ s)).
Proof.
  revert i. induction n as [|n IH]; intros i Hi; [by right|].
  assert (∃ p name, POWERS !! i = Some p ∧ power_str p = Ok name)
    as (p & name & Hp & Hn).
  { do 7 (destruct i as [|i]; [do 2 eexists; split; reflexivity|]). lia. }
  cbn [power_from_str_loop]. rewrite Hp, Hn. cbn [mbind result_bind].
  destruct (decide (name = s)); [left; by exists p|].
  apply IH. lia.
Qed.

Lemma power_from_str_cases (s : string) :
  (∃ p, power_from_str s = Ok p) ∨
  power_from_str s = Err (JFail ("Bad arg to power_from_str: " +:+ s)).
Proof. apply (power_from_str_loop_outcome s 7 0 eq_refl). Qed.

(** X1. [power_from_str] succeeds exactly on the names of the Great Powers,
    and what it returns is the power of that name: [power_from_str s]
    returns [p] if and only if [p] is a Great Power and [power_str p] is
    [s]. In particular it never returns [NONE], and the name of the power
    it returns is the string it was given, character for character. *)
Theorem power_from_str_Ok_iff (s : string) (p : Power) :
  power_from_str s = Ok p ↔ is_great_power p ∧ power_str p = Ok s.
Proof.
  split.
  - intros Hp. pose proof (power_from_str_loop_name _ _ _ _ Hp) as Hs.
    split; [by eapply power_str_named_great|done].
  - intros [_ Hs]. by apply power_from_str_of_name.
Qed.

Lemma power_from_str_Ok_iff_witness :
  is_great_power GERMANY ∧ power_str GERMANY = Ok "GERMANY"%string.
Proof. apply (proj1 (power_from_str_Ok_iff "GERMANY" GERMANY)). reflexivity. Defined.

(** X2. [power_from_str] fails in one way only. For every string it either
    returns a power or fails through [JFAIL] with the message that quotes
    the string; the bounds-checked lookup that [power_str] performs inside
    the loop never throws, because the loop only passes it the seven
    entries of [POWERS]. *)
Theorem power_from_str_outcome (s : string) :
  ((∃ p, power_from_str s = Ok p) ∨
   power_from_str s = Err (JFail ("Bad arg to power_from_str: " +:+ s))) ∧
  power_from_str s ≠ Err OutOfRange.
Proof.
  destruct (power_from_str_cases s) as [[p Hp]|Hfail].
  - split; [left; by exists p|]. by rewrite Hp.
  - split; [by right|]. by rewrite Hfail.
Qed.

(** * Further properties of the methods defined in [game.h] *)

Section HeaderMethods.
Import Game.
Context {GameState Order : Type}.
Context (get_phase : GameState → Phase).
Context (state_compute_board_hash : GameState → Z).

Abbreviation Game := (Game GameState Order).

(** X3. [py_add_message] called with the names of two powers is
    [add_message] called with those two powers: both lookups succeed, the
    call returns normally, and the sender and recipient handed on are the
    Great Powers that bear the two names. *)
Theorem py_add_message_named (now time_sent : N) (p q : Power)
    (from to text : string) (g : Game) :
  power_str p = Ok from → power_str q = Ok to →
  is_great_power p ∧ is_great_power q ∧
  py_add_message get_phase now from to text time_sent g
  = (Ok (), add_message get_phase now p q text time_sent g).
Proof.
  intros Hp Hq. split; [by eapply power_str_named_great|].
  split; [by eapply power_str_named_great|].
  unfold py_add_message.
  by rewrite (power_from_str_of_name _ _ Hp), (power_from_str_of_name _ _ Hq).
Qed.

(** X4. [py_add_message] called with a sender or a recipient that is not
    the name of a power adds nothing: the call fails with the lookup
    failure of [power_from_str] for one of the two strings, a string that
    names no power, and the game is as it was. (Which of two unknown names
    the failure reports is the one thing left open.) *)
Theorem py_add_message_unknown (now time_sent : N) (from to text : string)
    (g : Game) :
  (∀ p, power_str p ≠ Ok from) ∨ (∀ q, power_str q ≠ Ok to) →
  ∃ bad, (bad = from ∨ bad = to) ∧ (∀ p, power_str p ≠ Ok bad) ∧
         py_add_message get_phase now from to text time_sent g
         = (Err (JFail ("Bad arg to power_from_str: " +:+ bad)), g).
Proof.
  intros Hbad. unfold py_add_message.
  destruct (power_from_str_cases from) as [[p Hp]|Hfrom].
  - rewrite Hp. destruct Hbad as [Hbad|Hbad].
    { exfalso. by eapply Hbad, power_from_str_loop_name. }
    destruct (power_from_str_cases to) as [[q Hq]|Hto].
    { exfalso. by eapply Hbad, power_from_str_loop_name. }
    rewrite Hto. exists to. split; [by right|]. by split.
  - rewrite Hfrom. exists from. split; [by left|]. split; [|done].
    intros p Hp. apply power_from_str_of_name in Hp. congruence.
Qed.

(** X5. The two configuration setters are independent. They commute with
    each other; [set_draw_on_stalemate_years] overwrites an earlier
    setting; [set_exception_on_convoy_paradox] is idempotent; neither
    touches the other's member; and neither touches the state, the staged
    orders, the histories, the logs, the rules or the game id, so the
    board hash and the map name are what they were. *)
Theorem configuration_setters_independent (g : Game) (year year' : Z) :
  set_exception_on_convoy_paradox (set_draw_on_stalemate_years year g)
  = set_draw_on_stalemate_years year (set_exception_on_convoy_paradox g) ∧
  set_draw_on_stalemate_years year' (set_draw_on_stalemate_years year g)
  = set_draw_on_stalemate_years year' g ∧
  set_exception_on_convoy_paradox (set_exception_on_convoy_paradox g)
  = set_exception_on_convoy_paradox g ∧
  draw_on_stalemate_years_ (set_exception_on_convoy_paradox g)
  = draw_on_stalemate_years_ g ∧
  exception_on_convoy_paradox_ (set_draw_on_stalemate_years year g)
  = exception_on_convoy_paradox_ g ∧
  (∀ g', g' = set_exception_on_convoy_paradox g
         ∨ g' = set_draw_on_stalemate_years year g →
     game_id g' = game_id g ∧ state_ g' = state_ g ∧
     staged_orders_ g' = staged_orders_ g ∧
     get_state_history g' = get_state_history g ∧
     get_order_history g' = get_order_history g ∧
     get_message_history g' = get_message_history g ∧
     logs_ g' = logs_ g ∧ rules_ g' = rules_ g ∧
     compute_board_hash state_compute_board_hash g'
     = compute_board_hash state_compute_board_hash g ∧
     map_name g' = map_name g).
Proof.
  do 5 (split; [by destruct g|]). by intros g' [-> | ->].
Qed.

End HeaderMethods.

(** * Further properties of the civil-disorder distance tables *)

Lemma vector_at_Ok {A} (v : list A) (i : Z) (x : A) :
  vector_at v i = Ok x ↔ 0 ≤ i ∧ v !! Z.to_nat i = Some x.
Proof.
  unfold vector_at. case_bool_decide as Hi.
  - destruct (v !! Z.to_nat i) as [y|] eqn:Hy.
    + split; [intros [= ->]; split; [lia|done]|by intros [_ [= ->]]].
    + split; [done|by intros [_ ?]].
  - split; [done|]. intros [Hpos Hx]. apply lookup_lt_Some in Hx. lia.
Qed.

(** Two vectors related entry by entry are related at every index that
    [at] accepts. *)
Lemma vector_at_Forall2 {A B} (R : A → B → Prop) (v : list A) (w : list B)
    (i : Z) (x : A) (y : B) :
  Forall2 R v w → vector_at v i = Ok x → vector_at w i = Ok y → R x y.
Proof.
  intros HR [_ Hx]%vector_at_Ok [_ Hy]%vector_at_Ok.
  by eapply Forall2_lookup_lr.
Qed.

(** Reads the vector of a power out of a table hypothesis. *)
Ltac table_entry H :=
  vm_compute in H; first [discriminate H | injection H as <-].

(** X6. No army distance is the sentinel. Every value of every army
    vector lies between 0 and 7; every value of every fleet vector is
    either -1 or lies between 0 and 11. *)
Theorem civil_disorder_distance_bounds (p : Power) (v : list Z) (i d : Z) :
  (CIVIL_DISORDER_DISTS_ARMY !! p = Some v → vector_at v i = Ok d →
   0 ≤ d ≤ 7) ∧
  (CIVIL_DISORDER_DISTS_FLEET !! p = Some v → vector_at v i = Ok d →
   d = NEVER_DISBAND ∨ 0 ≤ d ≤ 11).
Proof.
  split; intros Hv [_ Hd]%vector_at_Ok;
    apply list_elem_of_lookup_2 in Hd; revert d Hd; apply Forall_forall;
    destruct p; table_entry Hv; apply (bool_decide_unpack _); by vm_compute.
Qed.

Lemma civil_disorder_distance_bounds_witness :
  0 ≤ 7 ≤ 7 ∧ (-1 = NEVER_DISBAND ∨ 0 ≤ -1 ≤ 11).
Proof.
  split.
  - apply (proj1 (civil_disorder_distance_bounds TURKEY
                    (default [] (CIVIL_DISORDER_DISTS_ARMY !! TURKEY)) 0 7));
      reflexivity.
  - apply (proj2 (civil_disorder_distance_bounds TURKEY
                    (default [] (CIVIL_DISORDER_DISTS_FLEET !! TURKEY)) 21 (-1)));
      reflexivity.
Defined.

(** X7. The two tables agree on where a power is at home, and no two
    powers are at home in the same place. For one power, the army vector
    holds 0 at an index exactly when the fleet vector holds 0 there; for
    two different powers, an index at which one army vector holds 0 is not
    one at which the other does. *)
Theorem civil_disorder_home_positions (p q : Power) (va vf vb : list Z) (i : Z) :
  CIVIL_DISORDER_DISTS_ARMY !! p = Some va →
  CIVIL_DISORDER_DISTS_FLEET !! p = Some vf →
  (vector_at va i = Ok 0 ↔ vector_at vf i = Ok 0) ∧
  (p ≠ q → CIVIL_DISORDER_DISTS_ARMY !! q = Some vb →
   vector_at va i = Ok 0 → vector_at vb i ≠ Ok 0).
Proof.
  intros Ha Hf. split.
  - assert (Hsame : Forall2 (λ a f, a = 0 ↔ f = 0) va vf).
    { destruct p; table_entry Ha; table_entry Hf;
        apply (bool_decide_unpack _); by vm_compute. }
    rewrite !vector_at_Ok. split; intros [Hi Hx]; (split; [done|]).
    + destruct (Forall2_lookup_l _ _ _ _ _ Hsame Hx) as (f & Hf' & Hiff).
      by rewrite Hf', (proj1 Hiff eq_refl).
    + destruct (Forall2_lookup_r _ _ _ _ _ Hsame Hx) as (a & Ha' & Hiff).
      by rewrite Ha', (proj2 Hiff eq_refl).
  - intros Hpq Hb Hva Hvb.
    assert (Hapart : Forall2 (λ a b, ¬ (a = 0 ∧ b = 0)) va vb).
    { destruct p, q; try done; table_entry Ha; table_entry Hb;
        apply (bool_decide_unpack _); by vm_compute. }
    by apply (vector_at_Forall2 _ _ _ _ _ _ Hapart Hva Hvb).
Qed.

Lemma civil_disorder_home_positions_witness :
  (vector_at (default [] (CIVIL_DISORDER_DISTS_ARMY !! RUSSIA)) 27 = Ok 0 ↔
   vector_at (default [] (CIVIL_DISORDER_DISTS_FLEET !! RUSSIA)) 27 = Ok 0) ∧
  vector_at (default [] (CIVIL_DISORDER_DISTS_ARMY !! TURKEY)) 27 ≠ Ok 0.
Proof.
  destruct (civil_disorder_home_positions RUSSIA TURKEY
              (default [] (CIVIL_DISORDER_DISTS_ARMY !! RUSSIA))
              (default [] (CIVIL_DISORDER_DISTS_FLEET !! RUSSIA))
              (default [] (CIVIL_DISORDER_DISTS_ARMY !! TURKEY)) 27)
    as [Hsame Hapart]; [reflexivity..|].
  split; [exact Hsame|]. apply Hapart; [discriminate|reflexivity..].
Defined.

(** X8. A fleet is never nearer home than an army. For one power and one
    index, when the fleet vector holds a distance (not the sentinel), the
    army vector holds a distance at most as large. *)
Theorem civil_disorder_army_le_fleet (p : Power) (va vf : list Z) (i a f : Z) :
  CIVIL_DISORDER_DISTS_ARMY !! p = Some va →
  CIVIL_DISORDER_DISTS_FLEET !! p = Some vf →
  vector_at va i = Ok a → vector_at vf i = Ok f →
  f ≠ NEVER_DISBAND → a ≤ f.
Proof.
  intros Ha Hf Hva Hvf.
  assert (Hle : Forall2 (λ a f, f ≠ NEVER_DISBAND → a ≤ f) va vf).
  { destruct p; table_entry Ha; table_entry Hf;
      apply (bool_decide_unpack _); by vm_compute. }
  by apply (vector_at_Forall2 _ _ _ _ _ _ Hle Hva Hvf).
Qed.

Lemma civil_disorder_army_le_fleet_witness : 6 ≤ 8.
Proof.
  apply (civil_disorder_army_le_fleet AUSTRIA
           (default [] (CIVIL_DISORDER_DISTS_ARMY !! AUSTRIA))
           (default [] (CIVIL_DISORDER_DISTS_FLEET !! AUSTRIA)) 0 6 8);
    try reflexivity. discriminate.
Defined.

(** X9. The distances of a vector have no gaps. In each of the fourteen
    vectors the value 0 occurs, and whenever a positive distance occurs
    the distance one smaller occurs too, so the values of a vector are
    exactly 0 up to its largest distance (and, for fleets, the
    sentinel). *)
Theorem civil_disorder_distances_contiguous (p : Power) (v : list Z) :
  CIVIL_DISORDER_DISTS_ARMY !! p = Some v ∨
  CIVIL_DISORDER_DISTS_FLEET !! p = Some v →
  (∃ i, vector_at v i = Ok 0) ∧
  (∀ i d, vector_at v i = Ok d → 0 < d → ∃ j, vector_at v j = Ok (d - 1)).
Proof.
  intros Hv.
  assert (Hin : ∀ d, d ∈ v → ∃ j, vector_at v j = Ok d).
  { intros d [n Hn]%list_elem_of_lookup. exists (Z.of_nat n).
    apply vector_at_Ok. split; [lia|]. by rewrite Nat2Z.id. }
  assert (Hall : 0 ∈ v ∧ Forall (λ d, 0 < d → d - 1 ∈ v) v).
  { destruct Hv as [Hv|Hv]; destruct p; table_entry Hv;
      apply (bool_decide_unpack _); by vm_compute. }
  destruct Hall as [Hzero Hgap]. split; [by apply Hin|].
  intros i d [_ Hd]%vector_at_Ok Hpos. apply Hin.
  rewrite Forall_forall in Hgap. apply Hgap; [|done].
  by eapply list_elem_of_lookup_2.
Qed.

Lemma civil_disorder_distances_contiguous_witness :
  ∃ j, vector_at (default [] (CIVIL_DISORDER_DISTS_FLEET !! GERMANY)) j = Ok (11 - 1).
Proof.
  destruct (civil_disorder_distances_contiguous GERMANY
              (default [] (CIVIL_DISORDER_DISTS_FLEET !! GERMANY)))
    as [_ Hgap]; [right; reflexivity|].
  apply (Hgap 53 11); [reflexivity|lia].
Defined.

Lemma py_add_message_named_witness :
  is_great_power ITALY ∧ is_great_power FRANCE ∧
  Game.py_add_message Board.get_phase 5 "ITALY" "FRANCE" "Piedmont?" 0
    (Board.new_game None)
  = (Ok (), Game.add_message Board.get_phase 5 ITALY FRANCE "Piedmont?" 0
              (Board.new_game None)).
Proof.
  apply (py_add_message_named Board.get_phase 5 0 ITALY FRANCE
           "ITALY" "FRANCE" "Piedmont?" (Board.new_game None)); reflexivity.
Defined.

Lemma py_add_message_unknown_witness :
  ∃ bad, (bad = "ROME"%string ∨ bad = "FRANCE"%string) ∧
         (∀ p, power_str p ≠ Ok bad) ∧
         Game.py_add_message Board.get_phase 5 "ROME" "FRANCE" "Piedmont?" 0
           (Board.new_game None)
         = (Err (JFail ("Bad arg to power_from_str: " +:+ bad)), Board.new_game None).
Proof.
  apply (py_add_message_unknown Board.get_phase 5 0 "ROME" "FRANCE" "Piedmont?"
           (Board.new_game None)).
  left. intros p. by destruct p; vm_compute.
Defined.
